(** * DNN face detector (modules/dnn_face/src/detect.cpp)

    A shallow embedding of [DNNFaceDetectorImpl::generatePriors] and
    [DNNFaceDetectorImpl::postProcess], and the properties the specification
    states about them.

    Numbers are modelled as the code has them:
    - [int] is a 32-bit two's complement integer, a [Z] with the wrap-around
      written out where the code adds;
    - [float] and [double] are IEEE 754 binary32 and binary64, given by the
      Standard Library's executable specification [SpecFloat] at precisions
      24 and 53, with round-to-nearest-even.

    Two things the code calls lie outside the sources: [std::exp], a
    parameter of the embedding, and [cv::dnn::NMSBoxes], modelled from the
    specification's section 4.3 in module [NMS].

    Reads of the three output tensors go through [nth_error]: a read past
    the end of a tensor, undefined in C++, ends the run with [None]. *)

From Stdlib Require Import ZArith List Bool Lia QArith Qround Qpower.
From Stdlib Require Import Floats.SpecFloat.
Import ListNotations.

Local Open Scope Z_scope.

(** ** Machine integers *)

Definition INT_MIN : Z := - 2 ^ 31.
Definition INT_MAX : Z := 2 ^ 31 - 1.

(** [int] arithmetic wraps modulo 2^32 into [INT_MIN, INT_MAX]. *)
Definition wrap32 (z : Z) : Z := (z + 2 ^ 31) mod 2 ^ 32 - 2 ^ 31.

Definition int_add (a b : Z) : Z := wrap32 (a + b).

(** C++ integer division truncates toward zero. *)
Definition int_div (a b : Z) : Z := Z.quot a b.

(** ** IEEE 754 arithmetic *)

(** [float]: binary32. *)
Module f32.
Definition prec : Z := 24.
Definition emax : Z := 128.
Definition add := SFadd prec emax.
Definition sub := SFsub prec emax.
Definition mul := SFmul prec emax.
Definition div := SFdiv prec emax.
Definition sqrt := SFsqrt prec emax.
Definition ltb := SFltb.
Definition leb := SFleb.
Definition eqb := SFeqb.
Definition valid := valid_binary prec emax.
(** Conversion of an [int] to [float] (rounds above 2^24). *)
Definition of_int (z : Z) : spec_float := binary_normalize prec emax z 0 false.
Definition zero : spec_float := S754_zero false.
Definition one : spec_float := Eval vm_compute in of_int 1.
End f32.

(** [double]: binary64. *)
Module f64.
Definition prec : Z := 53.
Definition emax : Z := 1024.
Definition add := SFadd prec emax.
Definition mul := SFmul prec emax.
Definition div := SFdiv prec emax.
(** Conversion of an [int] to [double] (always exact). *)
Definition of_int (z : Z) : spec_float := binary_normalize prec emax z 0 false.
(** The literal [0.5]. *)
Definition half : spec_float := Eval vm_compute in div (of_int 1) (of_int 2).
(** The literals [0.1] and [0.2]: the doubles nearest to 1/10 and 2/10. *)
Definition lit_0_1 : spec_float := Eval vm_compute in div (of_int 1) (of_int 10).
Definition lit_0_2 : spec_float := Eval vm_compute in div (of_int 2) (of_int 10).
(** Narrowing conversion [double] -> [float]. *)
Definition to_f32 (x : spec_float) : spec_float :=
  match x with
  | S754_finite s m e => binary_round f32.prec f32.emax s m e
  | _ => x
  end.
End f64.

Declare Scope f32_scope.
Delimit Scope f32_scope with f32.
Infix "+" := f32.add : f32_scope.
Infix "-" := f32.sub : f32_scope.
Infix "*" := f32.mul : f32_scope.
Infix "/" := f32.div : f32_scope.

Declare Scope f64_scope.
Delimit Scope f64_scope with f64.
Infix "+" := f64.add : f64_scope.
Infix "*" := f64.mul : f64_scope.
Infix "/" := f64.div : f64_scope.

(** ** Order of IEEE values *)

Definition is_nan (x : spec_float) : bool :=
  match x with S754_nan => true | _ => false end.

(** ** Data *)

Module Size.
Record t := mk { width : Z; height : Z }.
End Size.

(** [Rect2f]: for a prior, [x], [y] hold the centre (cx, cy) and
    [width], [height] the base size (s_kx, s_ky), all as image fractions. *)
Module Rect2f.
Record t := mk { x : spec_float; y : spec_float;
                 width : spec_float; height : spec_float }.
End Rect2f.

Module Rect2i.
Record t := mk { x : Z; y : Z; width : Z; height : Z }.
End Rect2i.

(** ** Loops *)

(** [for (int i = 0; i < n; ++i) body] over a state [S]. *)
Definition for_range {S : Type} (n : Z) (body : Z -> S -> S) (s : S) : S :=
  fold_left (fun s i => body (Z.of_nat i) s) (seq 0 (Z.to_nat n)) s.

(** [for (size_t j = 0; j < v.size(); ++j) body] with [v[j]] read in the body. *)
Definition for_index {S : Type} (n : nat) (body : nat -> S -> S) (s : S) : S :=
  fold_left (fun s j => body j s) (seq 0 n) s.

(** ** generatePriors (detect.cpp:62-120) *)

Definition feature_map_2nd (img_w img_h : Z) : Size.t :=
  Size.mk (int_div (int_div (int_add img_w 1) 2) 2)
          (int_div (int_div (int_add img_h 1) 2) 2).

Definition feature_map_next (fm : Size.t) : Size.t :=
  Size.mk (int_div (Size.width fm) 2) (int_div (Size.height fm) 2).

Definition feature_map_3rd img_w img_h := feature_map_next (feature_map_2nd img_w img_h).
Definition feature_map_4th img_w img_h := feature_map_next (feature_map_3rd img_w img_h).
Definition feature_map_5th img_w img_h := feature_map_next (feature_map_4th img_w img_h).
Definition feature_map_6th img_w img_h := feature_map_next (feature_map_5th img_w img_h).

Definition feature_map_sizes (img_w img_h : Z) : list Size.t :=
  [ feature_map_3rd img_w img_h; feature_map_4th img_w img_h;
    feature_map_5th img_w img_h; feature_map_6th img_w img_h ].

(** The literals 10.0f ... 256.0f are exact in binary32. *)
Definition min_sizes : list (list spec_float) :=
  Eval vm_compute in
  map (map f32.of_int) [ [10; 16; 24]; [32; 48]; [64; 96]; [128; 192; 256] ].

Definition steps : list Z := [8; 16; 32; 64].

(** The body of the innermost loop (detect.cpp:108-115): [s_kx], [s_ky] are
    computed in [float]; [cx], [cy] in [double] (the literal 0.5 promotes)
    and narrowed on assignment. *)
Definition make_prior (img_w img_h : Z) (step : Z) (_h _w : Z) (ms : spec_float)
  : Rect2f.t :=
  let s_kx := (ms / f32.of_int img_w)%f32 in
  let s_ky := (ms / f32.of_int img_h)%f32 in
  let cx := f64.to_f32 ((f64.of_int _w + f64.half) * f64.of_int step / f64.of_int img_w)%f64 in
  let cy := f64.to_f32 ((f64.of_int _h + f64.half) * f64.of_int step / f64.of_int img_h)%f64 in
  Rect2f.mk cx cy s_kx s_ky.

(** One iteration of the loop over scales (detect.cpp:98-118), appending to
    the member [priors]. *)
Definition generate_level (img_w img_h : Z) (i : nat) (priors : list Rect2f.t)
  : list Rect2f.t :=
  let feature_map_size := nth i (feature_map_sizes img_w img_h) (Size.mk 0 0) in
  let min_size := nth i min_sizes [] in
  for_range (Size.height feature_map_size) (fun _h priors =>
    for_range (Size.width feature_map_size) (fun _w priors =>
      for_index (length min_size) (fun j priors =>
        priors ++ [make_prior img_w img_h (nth i steps 0) _h _w
                              (nth j min_size f32.zero)])
      priors)
    priors)
  priors.

(** [generatePriors], as a function of the member [priors] it appends to. *)
Definition generatePriors_from (img_w img_h : Z) (priors : list Rect2f.t)
  : list Rect2f.t :=
  for_index (length (feature_map_sizes img_w img_h))
            (generate_level img_w img_h) priors.

(** The constructor calls it once, on the empty vector. *)
Definition generatePriors (img_w img_h : Z) : list Rect2f.t :=
  generatePriors_from img_w img_h [].

(** ** Conversions used by postProcess *)

(** The integral part of a finite [float], rounded toward zero. *)
Definition truncate (x : spec_float) : option Z :=
  match x with
  | S754_zero _ => Some 0
  | S754_finite s m e =>
      Some (cond_Zopp s (match e with
                         | Zneg p => Z.pos m / 2 ^ Z.pos p
                         | _ => Z.pos m * 2 ^ e
                         end))
  | _ => None
  end.

(** The exact value of a finite [float] as a rational. *)
Definition SF2Q (x : spec_float) : option Q :=
  match x with
  | S754_zero _ => Some 0%Q
  | S754_finite s m e => Some (inject_Z (cond_Zopp s (Z.pos m)) * Qpower 2 e)%Q
  | _ => None
  end.

(** Rounding of a rational toward zero. *)
Definition Qtrunc (q : Q) : Z := if Qle_bool 0 q then Qfloor q else Qceiling q.

(** [q > t] for a rational [q] and a [float] threshold [t], read as IEEE
    reads it: false against NaN. *)
Definition Q_gt_float (q : Q) (t : spec_float) : bool :=
  match t with
  | S754_nan => false
  | S754_infinity s => s
  | _ => match SF2Q t with
         | Some v => negb (Qle_bool q v)
         | None => false
         end
  end.

(** ** Option monad for reads that may leave a buffer *)

Notation "x <- m ;; k" := (match m with Some x => k | None => None end)
  (at level 61, m at next level, right associativity).

(** [m.row(idx)] for each [idx] of a list of indices, in order. *)
Fixpoint rows_at {A : Type} (m : list A) (idxs : list nat) : option (list A) :=
  match idxs with
  | [] => Some []
  | idx :: rest =>
      r <- nth_error m idx ;;
      rs <- rows_at m rest ;;
      Some (r :: rs)
  end.

(** Loops that append under the option monad. *)
Fixpoint traverse {A B : Type} (g : A -> option B) (l : list A) : option (list B) :=
  match l with
  | [] => Some []
  | a :: l' => b <- g a ;; bs <- traverse g l' ;; Some (b :: bs)
  end.

(** ** Detections *)

(** One row of the 15-column result matrix (detect.cpp:136-141):
    top-left corner and size of the box, five landmarks, score. *)
Record Face := mkFace {
  tl_x : spec_float; tl_y : spec_float; w : spec_float; h : spec_float;
  re_x : spec_float; re_y : spec_float;
  le_x : spec_float; le_y : spec_float;
  nt_x : spec_float; nt_y : spec_float;
  rcm_x : spec_float; rcm_y : spec_float;
  lcm_x : spec_float; lcm_y : spec_float;
  score : spec_float }.

(** ** Non-maximum suppression *)

Module NMS.

(** Half-open pixel rectangle [x, x+width) x [y, y+height). *)
Definition area (r : Rect2i.t) : Z :=
  Z.max 0 (Rect2i.width r) * Z.max 0 (Rect2i.height r).

Definition inter_area (a b : Rect2i.t) : Z :=
  let x1 := Z.max (Rect2i.x a) (Rect2i.x b) in
  let y1 := Z.max (Rect2i.y a) (Rect2i.y b) in
  let x2 := Z.min (Rect2i.x a + Z.max 0 (Rect2i.width a))
                  (Rect2i.x b + Z.max 0 (Rect2i.width b)) in
  let y2 := Z.min (Rect2i.y a + Z.max 0 (Rect2i.height a))
                  (Rect2i.y b + Z.max 0 (Rect2i.height b)) in
  Z.max 0 (x2 - x1) * Z.max 0 (y2 - y1).

Definition union_area (a b : Rect2i.t) : Z :=
  area a + area b - inter_area a b.

(** Area of intersection over area of union; the quotient of two empty
    rectangles, which the specification leaves open, is taken as 0. *)
Definition iou (a b : Rect2i.t) : Q :=
  match union_area a b with
  | Z.pos u => inter_area a b # u
  | _ => 0%Q
  end.

Record Candidate := mkCandidate {
  c_score : spec_float; c_index : nat; c_box : Rect2i.t }.

Definition candidates (bboxes : list Rect2i.t) (scores : list spec_float)
  : list Candidate :=
  map (fun p => mkCandidate (fst p) (fst (snd p)) (snd (snd p)))
      (combine scores (combine (seq 0 (length scores)) bboxes)).

Definition eligible (score_threshold : spec_float) (c : Candidate) : bool :=
  f32.leb score_threshold (c_score c).

(** Stable insertion into a list sorted by descending score: [c], which
    precedes the elements of [l] in input order, goes before the first
    element whose score is not strictly greater. *)
Fixpoint insert_desc (c : Candidate) (l : list Candidate) : list Candidate :=
  match l with
  | [] => [c]
  | d :: l' =>
      if f32.ltb (c_score c) (c_score d) then d :: insert_desc c l'
      else c :: l
  end.

Definition sort_desc (l : list Candidate) : list Candidate :=
  fold_right insert_desc [] l.

Definition overlaps (nms_threshold : spec_float) (a b : Candidate) : bool :=
  Q_gt_float (iou (c_box a) (c_box b)) nms_threshold.

(** The greedy walk: accept the first remaining candidate, discard the
    lower-ranked ones that overlap it above the threshold, repeat.
    [fuel] bounds the number of rounds; [length pool] rounds suffice. *)
Fixpoint walk (nms_threshold : spec_float) (fuel : nat) (pool : list Candidate)
  : list Candidate :=
  match fuel, pool with
  | S fuel', c :: rest =>
      c :: walk nms_threshold fuel'
             (filter (fun d => negb (overlaps nms_threshold c d)) rest)
  | _, _ => []
  end.

Definition suppress (nms_threshold : spec_float) (pool : list Candidate)
  : list Candidate :=
  walk nms_threshold (length pool) pool.

(** The candidates accepted, in the order of acceptance: the eligible
    ones, sorted, cut to [top_k], then walked. *)
Definition accepted (bboxes : list Rect2i.t) (scores : list spec_float)
    (score_threshold nms_threshold : spec_float) (top_k : Z) : list Candidate :=
  let pool := filter (eligible score_threshold) (candidates bboxes scores) in
  let sorted := sort_desc pool in
  let retained := firstn (Z.to_nat top_k) sorted in
  suppress nms_threshold retained.

(** Modelled from the spec: [cv::dnn::NMSBoxes], called at detect.cpp:198
    and defined in OpenCV's dnn module, outside this repository's sources.
    Following section 4.3: the candidates whose score is at least
    [score_threshold] are eligible; they are sorted by descending score,
    ties in input order; at most [top_k] are retained; the greedy walk
    accepts and discards; the indices of the accepted candidates are
    returned in the order of acceptance. Step 1's remark that the
    comparison pool considers all candidates is read with steps 2 and 3:
    the walk runs over the sorted eligible candidates. (The call's [eta]
    argument, 1, has no counterpart in the specification.) *)
Definition NMSBoxes (bboxes : list Rect2i.t) (scores : list spec_float)
    (score_threshold nms_threshold : spec_float) (top_k : Z) : list nat :=
  map c_index (accepted bboxes scores score_threshold nms_threshold top_k).

(** Orders used to state what sorting achieves. *)
Definition index_lt (c d : Candidate) : Prop := (c_index c < c_index d)%nat.

(** [c] is ranked before [d]: its score is not lower, and on equal scores
    its anchor index is the smaller. *)
Definition ranked_before (c d : Candidate) : Prop :=
  f32.leb (c_score d) (c_score c) = true /\
  (f32.eqb (c_score c) (c_score d) = true -> (c_index c < c_index d)%nat).

End NMS.

(** ** postProcess (detect.cpp:122-212) *)

Section Detector.

(** [std::exp] on [float], from the C++ standard library. *)
Variable expf : spec_float -> spec_float.

(** The [int] a platform yields when a [float] whose integral part does
    not fit [int] (or NaN, or an infinity) is converted; the language
    leaves it undefined. *)
Variable unrepresentable_to_int : spec_float -> Z.

(** Implicit conversion [float] -> [int] in [Rect2i(...)]. *)
Definition float_to_int (x : spec_float) : Z :=
  match truncate x with
  | Some z => if (INT_MIN <=? z) && (z <=? INT_MAX) then z
              else unrepresentable_to_int x
  | None => unrepresentable_to_int x
  end.

(** [variance = {0.1, 0.2}] as [float]. *)
Definition variance0 : spec_float := Eval vm_compute in f64.to_f32 f64.lit_0_1.
Definition variance1 : spec_float := Eval vm_compute in f64.to_f32 f64.lit_0_2.

Variables img_w img_h : Z.
Variable priors : list Rect2f.t.
Variables loc_v conf_v iou_v : list spec_float.

(** detect.cpp:146-152. *)
Definition clamp (iouScore : spec_float) : spec_float :=
  if f32.ltb iouScore f32.zero then f32.zero
  else if f32.ltb f32.one iouScore then f32.one
  else iouScore.

(** [(priors[i].x + loc_v[..] * variance[0] * priors[i].width) * img_w],
    the expression of lines 157, 169, 171, 173, 175, 177. *)
Definition decode_x (prior : Rect2f.t) (d : spec_float) : spec_float :=
  ((Rect2f.x prior + d * variance0 * Rect2f.width prior) * f32.of_int img_w)%f32.

(** [(priors[i].y + loc_v[..] * variance[0] * priors[i].height) * img_h],
    the expression of lines 158, 170, 172, 174, 176, 178. *)
Definition decode_y (prior : Rect2f.t) (d : spec_float) : spec_float :=
  ((Rect2f.y prior + d * variance0 * Rect2f.height prior) * f32.of_int img_h)%f32.

(** The body of the decoding loop (detect.cpp:141-178) for anchor [i];
    [None] when a read falls outside a tensor's data. *)
Definition decode_face (i : nat) : option Face :=
  prior <- nth_error priors i ;;
  clsScore <- nth_error conf_v (i*2+1) ;;
  iouScore <- nth_error iou_v i ;;
  let iouScore := clamp iouScore in
  let score := f32.sqrt (clsScore * iouScore)%f32 in
  l0 <- nth_error loc_v (i*14+0) ;;
  l1 <- nth_error loc_v (i*14+1) ;;
  l2 <- nth_error loc_v (i*14+2) ;;
  l3 <- nth_error loc_v (i*14+3) ;;
  let cx := decode_x prior l0 in
  let cy := decode_y prior l1 in
  let w := (Rect2f.width prior * expf (l2 * variance0) * f32.of_int img_w)%f32 in
  let h := (Rect2f.height prior * expf (l3 * variance1) * f32.of_int img_h)%f32 in
  let x1 := (cx - w / f32.of_int 2)%f32 in
  let y1 := (cy - h / f32.of_int 2)%f32 in
  l4 <- nth_error loc_v (i*14+4) ;;
  l5 <- nth_error loc_v (i*14+5) ;;
  l6 <- nth_error loc_v (i*14+6) ;;
  l7 <- nth_error loc_v (i*14+7) ;;
  l8 <- nth_error loc_v (i*14+8) ;;
  l9 <- nth_error loc_v (i*14+9) ;;
  l10 <- nth_error loc_v (i*14+10) ;;
  l11 <- nth_error loc_v (i*14+11) ;;
  l12 <- nth_error loc_v (i*14+12) ;;
  l13 <- nth_error loc_v (i*14+13) ;;
  Some (mkFace x1 y1 w h
               (decode_x prior l4) (decode_y prior l5)
               (decode_x prior l6) (decode_y prior l7)
               (decode_x prior l8) (decode_y prior l9)
               (decode_x prior l10) (decode_y prior l11)
               (decode_x prior l12) (decode_y prior l13)
               score).

(** The decoding loop (detect.cpp:135-181). *)
Definition decode : option (list Face) :=
  for_index (length priors)
    (fun i acc => faces <- acc ;; face <- decode_face i ;; Some (faces ++ [face]))
    (Some []).

Variables scoreThreshold nmsThreshold : spec_float.
Variable topK : Z.

(** detect.cpp:190-193. *)
Definition face_box (f : Face) : Rect2i.t :=
  Rect2i.mk (float_to_int (tl_x f)) (float_to_int (tl_y f))
            (float_to_int (w f)) (float_to_int (h f)).

(** The indices of the rows returned (detect.cpp:183-211): those NMS
    keeps when there is more than one row, every row otherwise. *)
Definition keepIdx (faces : list Face) : list nat :=
  if (1 <? length faces)%nat then
    NMS.NMSBoxes (map face_box faces) (map score faces)
                 scoreThreshold nmsThreshold topK
  else seq 0 (length faces).

Definition postProcess : option (list Face) :=
  faces <- decode ;;
  if (1 <? length faces)%nat then
    let faceBoxes := map face_box faces in
    let faceScores := map score faces in
    let keepIdx := NMS.NMSBoxes faceBoxes faceScores
                                scoreThreshold nmsThreshold topK in
    rows_at faces keepIdx
  else Some faces.

End Detector.

(** The pipeline of one detector instance: priors generated at construction
    for the configured resolution, then post-processing of the three output
    tensors. *)
Definition detect expf unrepresentable_to_int (img_w img_h : Z)
    (loc_v conf_v iou_v : list spec_float)
    (scoreThreshold nmsThreshold : spec_float) (topK : Z) : option (list Face) :=
  postProcess expf unrepresentable_to_int img_w img_h
              (generatePriors img_w img_h) loc_v conf_v iou_v
              scoreThreshold nmsThreshold topK.

(** ** The order of the specification (section 4.1) *)

(** The four detection levels: stride and anchor sizes in pixels. *)
Definition spec_levels : list (Z * list Z) :=
  [ (8, [10; 16; 24]); (16, [32; 48]); (32, [64; 96]); (64, [128; 192; 256]) ].

(** [cx = (_w + 0.5) * stride / image_width], [cy = (_h + 0.5) * stride /
    image_height], [base_w = s / image_width], [base_h = s / image_height]. *)
Definition spec_prior (image_width image_height stride _h _w s : Z) : Rect2f.t :=
  Rect2f.mk
    (f64.to_f32 ((f64.of_int _w + f64.half) * f64.of_int stride / f64.of_int image_width)%f64)
    (f64.to_f32 ((f64.of_int _h + f64.half) * f64.of_int stride / f64.of_int image_height)%f64)
    (f32.of_int s / f32.of_int image_width)%f32
    (f32.of_int s / f32.of_int image_height)%f32.

(** 0, 1, ..., n-1 (empty when [n <= 0]). *)
Definition upto (n : Z) : list Z := map Z.of_nat (seq 0 (Z.to_nat n)).

(** The priors of one level, rows outermost, then columns, then sizes. *)
Definition spec_level_priors (image_width image_height : Z) (fm : Size.t)
    (level : Z * list Z) : list Rect2f.t :=
  flat_map (fun _h =>
    flat_map (fun _w =>
      map (fun s => spec_prior image_width image_height (fst level) _h _w s)
          (snd level))
      (upto (Size.width fm)))
    (upto (Size.height fm)).

Definition spec_priors (image_width image_height : Z) : list Rect2f.t :=
  flat_map (fun p => spec_level_priors image_width image_height (fst p) (snd p))
           (combine (feature_map_sizes image_width image_height) spec_levels).

(** ** Vocabulary of the properties *)

(** Every tensor holds at least as many rows as there are priors. *)
Definition enough_rows (priors : list Rect2f.t)
    (loc_v conf_v iou_v : list spec_float) : Prop :=
  (length priors * 14 <= length loc_v)%nat /\
  (length priors * 2 <= length conf_v)%nat /\
  (length priors <= length iou_v)%nat.

(** The candidates accepted among the decoded rows [faces]. *)
Definition accepted_faces (unrepresentable_to_int : spec_float -> Z)
    (scoreThreshold nmsThreshold : spec_float) (topK : Z) (faces : list Face)
  : list NMS.Candidate :=
  NMS.accepted (map (face_box unrepresentable_to_int) faces) (map score faces)
               scoreThreshold nmsThreshold topK.

(** A candidate stands for the decoded row at its index: it carries the
    row's score and the row's box with truncated coordinates. *)
Definition stands_for (unrepresentable_to_int : spec_float -> Z)
    (faces : list Face) (c : NMS.Candidate) (f : Face) : Prop :=
  nth_error faces (NMS.c_index c) = Some f /\
  NMS.c_score c = score f /\
  NMS.c_box c = face_box unrepresentable_to_int f.

(** Number of cells of a feature map. *)
Definition cells (fm : Size.t) : nat :=
  (Z.to_nat (Size.height fm) * Z.to_nat (Size.width fm))%nat.

(** The priors a level contributes are those its iteration appends. *)
Definition level_priors (img_w img_h : Z) (i : nat) : list Rect2f.t :=
  generate_level img_w img_h i [].

(** Subsequences: what filtering, cutting and walking leave. *)
Inductive subseq {A : Type} : list A -> list A -> Prop :=
| subseq_nil : subseq [] []
| subseq_skip a l l' : subseq l l' -> subseq l (a :: l')
| subseq_keep a l l' : subseq l l' -> subseq (a :: l) (a :: l').

#[local] Hint Constructors subseq : core.

(** Values of [0, 1] and the invariant of rounding them. *)
Module Unit.

(** A binary32 value of [0, 1]: a zero, or [m * 2^e] with [m <= 2^(-e)]. *)
Definition in_unit (x : spec_float) : Prop :=
  match x with
  | S754_zero _ => True
  | S754_finite false m e => e <= -23 /\ Z.pos m <= 2 ^ (- e)
  | _ => False
  end.

(** The least multiple of the unit in the last place that bounds the
    value a mantissa and its location describe. *)
Definition upper (m : Z) (l : location) : Z :=
  match l with loc_Exact => m | loc_Inexact _ => m + 1 end.

Definition rec_upper (mrs : shr_record) : Z :=
  shr_m mrs + (if shr_r mrs || shr_s mrs then 1 else 0).

(** Invariant of the right shifts: the value stays below [2^k] units. *)
Definition below (k : Z) (mrs : shr_record) : Prop :=
  0 <= shr_m mrs /\ rec_upper mrs <= 2 ^ k.

End Unit.

(** ** The overlap of the boxes as returned *)

(** The box of a detection as exact rationals, when its four values are
    finite. *)
Definition exact_box (f : Face) : option (Q * Q * Q * Q) :=
  match SF2Q (tl_x f), SF2Q (tl_y f), SF2Q (w f), SF2Q (h f) with
  | Some x, Some y, Some w, Some h => Some (x, y, w, h)
  | _, _, _, _ => None
  end.

Definition Qmax (a b : Q) : Q := if Qle_bool a b then b else a.
Definition Qmin (a b : Q) : Q := if Qle_bool a b then a else b.

(** Area of intersection over area of union of two returned boxes. *)
Definition exact_iou (f g : Face) : option Q :=
  match exact_box f, exact_box g with
  | Some (ax, ay, aw, ah), Some (bx, by_, bw, bh) =>
      let aw := Qmax 0 aw in let ah := Qmax 0 ah in
      let bw := Qmax 0 bw in let bh := Qmax 0 bh in
      let iw := Qmax 0 (Qmin (ax + aw) (bx + bw) - Qmax ax bx) in
      let ih := Qmax 0 (Qmin (ay + ah) (by_ + bh) - Qmax ay by_) in
      let inter := (iw * ih)%Q in
      Some (inter / (aw * ah + bw * bh - inter))%Q
  | _, _ => None
  end.

(** ** A worked input: an 8 x 8 image *)

Module Sample.

(** A stand-in for [std::exp] that is right at zero and undefined
    elsewhere; the sample deltas for width and height are zero. *)
Definition exp_at_zero (x : spec_float) : spec_float :=
  match x with S754_zero _ => f32.one | _ => S754_nan end.

Definition to_int_default (x : spec_float) : Z := INT_MIN.

Definition zeros (n : nat) : list spec_float := repeat f32.zero n.

(** Three anchors (one cell of the stride-8 map, sizes 10, 16, 24): the
    first shifted by dx = -7, the second by dx = 5/16. *)
Definition loc : list spec_float :=
  [f32.of_int (-7)] ++ zeros 13 ++
  [f32.div (f32.of_int 5) (f32.of_int 16)] ++ zeros 13 ++
  zeros 14.

Definition conf : list spec_float :=
  [f32.zero; f32.one; f32.zero; f32.one; f32.zero; f32.zero].

Definition iou : list spec_float := [f32.one; f32.one; f32.one].

Definition score_threshold : spec_float := f32.div (f32.of_int 1) (f32.of_int 2).
Definition nms_threshold : spec_float := f32.div (f32.of_int 11) (f32.of_int 64).
Definition top_k : Z := 5000.

(** A fourth row for each tensor. *)
Definition loc_more : list spec_float := zeros 14.
Definition conf_more : list spec_float := [f32.zero; f32.one].
Definition iou_more : list spec_float := [f32.one].

Definition run : option (list Face) :=
  detect exp_at_zero to_int_default 8 8 loc conf iou
         score_threshold nms_threshold top_k.

Definition no_face : Face :=
  mkFace S754_nan S754_nan S754_nan S754_nan S754_nan S754_nan S754_nan
         S754_nan S754_nan S754_nan S754_nan S754_nan S754_nan S754_nan S754_nan.

(** The detections [run] returns. *)
Definition expected : list Face :=
  Eval vm_compute in match run with Some rows => rows | None => [] end.

End Sample.

Ltac sample_rows :=
  unfold enough_rows; vm_compute; repeat split; lia.


(** ** Vocabulary of the further properties *)

(** Number of priors the [i]-th detection level contributes, and number
    of priors before it. *)
Definition level_count (img_w img_h : Z) (i : nat) : nat :=
  (cells (nth i (feature_map_sizes img_w img_h) (Size.mk 0 0))
   * length (nth i min_sizes []))%nat.

Fixpoint level_offset (img_w img_h : Z) (i : nat) : nat :=
  match i with
  | O => O
  | S i' => (level_offset img_w img_h i' + level_count img_w img_h i')%nat
  end.

(** Two tensor triples agree on anchor [i]: same fourteen deltas, same face
    confidence, same IoU estimate. *)
Definition same_anchor_row (i : nat)
    (loc_v conf_v iou_v loc_v' conf_v' iou_v' : list spec_float) : Prop :=
  (forall k, (k < 14)%nat -> nth_error loc_v (i*14+k) = nth_error loc_v' (i*14+k)) /\
  nth_error conf_v (i*2+1) = nth_error conf_v' (i*2+1) /\
  nth_error iou_v i = nth_error iou_v' i.

Definition is_zero (x : spec_float) : bool :=
  match x with S754_zero _ => true | _ => false end.

(** Finite values: zeros and [m * 2^e]. *)
Definition is_finite (x : spec_float) : bool :=
  match x with S754_zero _ | S754_finite _ _ _ => true | _ => false end.

(** Positive finite values [m * 2^e] whose magnitude [digits m + e] lies
    between [lo] and [hi]: [2^(lo-1) <= m * 2^e < 2^hi]. *)
Definition pos_finite (lo hi : Z) (x : spec_float) : Prop :=
  match x with
  | S754_finite false m e => lo <= Zdigits2 (Z.pos m) + e <= hi
  | _ => False
  end.

(** Positive finite values: neither NaN, infinite, zero nor negative. *)
Definition is_positive (x : spec_float) : bool :=
  match x with S754_finite false _ _ => true | _ => false end.

(** A prior whose centre and extents are all positive finite values. *)
Definition positive_rect (p : Rect2f.t) : bool :=
  is_positive (Rect2f.x p) && is_positive (Rect2f.y p)
  && is_positive (Rect2f.width p) && is_positive (Rect2f.height p).

(** Tensors of an 8 x 8 run with out-of-range entries: a NaN and a
    negative face confidence, a negative IoU estimate. *)
Module Malformed.

Definition conf : list spec_float :=
  [f32.zero; S754_nan; f32.zero; f32.of_int (-1); f32.zero; f32.one].

Definition iou : list spec_float := [f32.one; f32.one; f32.of_int (-3)].

Definition run : option (list Face) :=
  decode Sample.exp_at_zero 8 8 (generatePriors 8 8) Sample.loc conf iou.

End Malformed.

(** * Properties *)

(** ** Loops that only append *)

Lemma fold_left_append {A B : Type} (body : B -> list A) (l : list B) (acc : list A) :
  fold_left (fun acc b => acc ++ body b) l acc = acc ++ flat_map body l.
Proof.
  revert acc; induction l as [|b l IH]; intros acc; simpl.
  - now rewrite app_nil_r.
  - now rewrite IH, app_assoc.
Qed.

Lemma fold_left_append_in {A B : Type} (body : B -> list A -> list A)
    (g : B -> list A) (l : list B) (acc : list A) :
  (forall b acc, In b l -> body b acc = acc ++ g b) ->
  fold_left (fun acc b => body b acc) l acc = acc ++ flat_map g l.
Proof.
  revert acc; induction l as [|b l IH]; intros acc Hbody; simpl.
  - now rewrite app_nil_r.
  - rewrite Hbody by now left.
    rewrite IH by (intros; apply Hbody; now right).
    now rewrite app_assoc.
Qed.

Lemma for_index_append {A : Type} (n : nat) (body : nat -> list A -> list A)
    (g : nat -> list A) (acc : list A) :
  (forall j acc, (j < n)%nat -> body j acc = acc ++ g j) ->
  for_index n body acc = acc ++ flat_map g (seq 0 n).
Proof.
  intros Hbody. unfold for_index.
  apply fold_left_append_in. intros j acc' Hj.
  apply Hbody. apply in_seq in Hj. lia.
Qed.

Lemma for_range_append {A : Type} (n : Z) (body : Z -> list A -> list A)
    (g : Z -> list A) (acc : list A) :
  (forall i acc, body i acc = acc ++ g i) ->
  for_range n body acc = acc ++ flat_map g (upto n).
Proof.
  intros Hbody. unfold for_range, upto.
  rewrite flat_map_concat_map, map_map, <- flat_map_concat_map.
  rewrite <- fold_left_append.
  revert acc. induction (seq 0 (Z.to_nat n)) as [|j l IH]; intros acc; simpl; [reflexivity|].
  now rewrite Hbody, IH.
Qed.

Lemma flat_map_singleton {A B : Type} (f : A -> B) (l : list A) :
  flat_map (fun a => [f a]) l = map f l.
Proof. induction l; simpl; congruence. Qed.

Lemma map_nth_seq {A : Type} (l : list A) (d : A) :
  map (fun j => nth j l d) (seq 0 (length l)) = l.
Proof.
  induction l as [|a l IH]; simpl; [reflexivity|].
  now rewrite <- seq_shift, map_map, IH.
Qed.

(** ** Prior generation *)

Lemma min_sizes_spec : min_sizes = map (fun lv => map f32.of_int (snd lv)) spec_levels.
Proof. reflexivity. Qed.

Lemma steps_spec : steps = map fst spec_levels.
Proof. reflexivity. Qed.

(** One iteration of the loop over scales appends the level's priors. *)
Lemma generate_level_spec (img_w img_h : Z) (i : nat) (priors : list Rect2f.t) :
  (i < 4)%nat ->
  generate_level img_w img_h i priors
  = priors ++ spec_level_priors img_w img_h
                (nth i (feature_map_sizes img_w img_h) (Size.mk 0 0))
                (nth i spec_levels (0, [])).
Proof.
  intros Hi. unfold generate_level, spec_level_priors.
  apply for_range_append; intros _h acc.
  apply for_range_append; intros _w acc'.
  rewrite (for_index_append _ _ (fun j =>
             [make_prior img_w img_h (nth i steps 0) _h _w
                         (nth j (nth i min_sizes []) f32.zero)]))
    by reflexivity.
  f_equal. rewrite flat_map_singleton.
  rewrite min_sizes_spec, steps_spec.
  destruct i as [|[|[|[|i]]]]; try lia; reflexivity.
Qed.

(** The loop over scales appends the four levels one after the other. *)
Lemma generatePriors_levels (img_w img_h : Z) :
  generatePriors img_w img_h
  = flat_map (fun j => spec_level_priors img_w img_h
                         (nth j (feature_map_sizes img_w img_h) (Size.mk 0 0))
                         (nth j spec_levels (0, [])))
             (seq 0 4).
Proof.
  unfold generatePriors, generatePriors_from.
  rewrite (for_index_append _ _ (fun j =>
             spec_level_priors img_w img_h
               (nth j (feature_map_sizes img_w img_h) (Size.mk 0 0))
               (nth j spec_levels (0, [])))).
  - reflexivity.
  - intros j acc Hj. now apply generate_level_spec.
Qed.

(** C1: for every input resolution (in particular every positive one) the
    prior list is, in order, level by level over strides 8, 16, 32, 64 and
    size sets {10,16,24}, {32,48}, {64,96}, {128,192,256}, row by row,
    column by column and size by size, the prior with
    cx = (_w + 0.5) * stride / image_width,
    cy = (_h + 0.5) * stride / image_height,
    base_w = s / image_width and base_h = s / image_height. *)
Theorem generatePriors_order (img_w img_h : Z) :
  generatePriors img_w img_h = spec_priors img_w img_h.
Proof.
  rewrite generatePriors_levels. unfold spec_priors, feature_map_sizes, spec_levels.
  cbn [seq flat_map combine nth fst snd]. reflexivity.
Qed.

(** *** Prior count *)

Lemma flat_map_const_length {A B : Type} (f : A -> list B) (l : list A) (k : nat) :
  (forall a, length (f a) = k) -> length (flat_map f l) = (length l * k)%nat.
Proof.
  intros Hf. induction l as [|a l IH]; simpl; [reflexivity|].
  now rewrite length_app, Hf, IH.
Qed.

Lemma upto_length (n : Z) : length (upto n) = Z.to_nat n.
Proof. unfold upto. now rewrite length_map, length_seq. Qed.

Lemma spec_level_priors_length (img_w img_h : Z) (fm : Size.t) (lv : Z * list Z) :
  length (spec_level_priors img_w img_h fm lv)
  = (Z.to_nat (Size.height fm) * (Z.to_nat (Size.width fm) * length (snd lv)))%nat.
Proof.
  unfold spec_level_priors.
  rewrite (flat_map_const_length _ _ (Z.to_nat (Size.width fm) * length (snd lv))).
  - now rewrite upto_length.
  - intros _h. rewrite (flat_map_const_length _ _ (length (snd lv))).
    + now rewrite upto_length.
    + intros _w. apply length_map.
Qed.


Lemma generatePriors_length (img_w img_h : Z) :
  length (generatePriors img_w img_h)
  = (cells (feature_map_3rd img_w img_h) * 3
     + cells (feature_map_4th img_w img_h) * 2
     + cells (feature_map_5th img_w img_h) * 2
     + cells (feature_map_6th img_w img_h) * 3)%nat.
Proof.
  rewrite generatePriors_levels.
  unfold cells, feature_map_sizes, spec_levels.
  cbn [seq flat_map nth].
  rewrite !length_app, !spec_level_priors_length.
  cbn [snd length]. lia.
Qed.

Lemma cells_next (fm : Size.t) : cells fm = 0%nat -> cells (feature_map_next fm) = 0%nat.
Proof.
  unfold cells, feature_map_next, int_div. simpl. intros H.
  assert (Hq : forall z, Z.to_nat z = 0%nat -> Z.to_nat (z ÷ 2) = 0%nat).
  { intros z Hz. destruct (Z.le_gt_cases z 0) as [Hle|Hgt]; [|lia].
    assert (z ÷ 2 <= 0) by (apply Z.quot_le_upper_bound; lia). lia. }
  apply Nat.eq_mul_0 in H. destruct H as [H0|H0].
  - now rewrite (Hq _ H0).
  - rewrite (Hq _ H0). lia.
Qed.

(** The generator never yields exactly one prior (nor two): either the
    stride-8 map has no cell, and then no deeper map has one, or it yields
    at least three. *)
Lemma generatePriors_length_cases (img_w img_h : Z) :
  generatePriors img_w img_h = [] \/ (3 <= length (generatePriors img_w img_h))%nat.
Proof.
  destruct (Nat.eq_dec (cells (feature_map_3rd img_w img_h)) 0) as [H3|H3].
  - left. apply length_zero_iff_nil. rewrite generatePriors_length.
    pose proof (cells_next _ H3) as H4. fold (feature_map_4th img_w img_h) in H4.
    pose proof (cells_next _ H4) as H5. fold (feature_map_5th img_w img_h) in H5.
    pose proof (cells_next _ H5) as H6. fold (feature_map_6th img_w img_h) in H6.
    lia.
  - right. rewrite generatePriors_length. lia.
Qed.


(** C2, as stated, fails: at 320 x 240 the level with stride 8 does not have
    an 80 x 60 feature map, and does not contribute 14400 priors. *)
Lemma stride8_level_320x240_not_80x60 :
  nth 0 steps 0 = 8 /\
  ~ (nth 0 (feature_map_sizes 320 240) (Size.mk 0 0) = Size.mk 80 60 /\
     length (level_priors 320 240 0) = (80 * 60 * 3)%nat).
Proof.
  split; [reflexivity|].
  intros [Hsize _]. vm_compute in Hsize. discriminate Hsize.
Qed.

(** C2, amended: at 320 x 240 the map of size (80, 60) is the one after the
    first two halvings (the first rounding up), which is not a detection
    level; the level with stride 8 uses the next halving, (40, 30), and
    contributes 40*30*3 = 3600 priors; the further levels have maps
    (20, 15), (10, 7), (5, 3), every halving after the first truncating,
    and the whole list has 4385 priors. *)
Theorem stride8_level_320x240 :
  feature_map_2nd 320 240 = Size.mk ((320 + 1) / 2 / 2) ((240 + 1) / 2 / 2) /\
  feature_map_2nd 320 240 = Size.mk 80 60 /\
  nth 0 steps 0 = 8 /\
  feature_map_sizes 320 240
    = [Size.mk 40 30; Size.mk 20 15; Size.mk 10 7; Size.mk 5 3] /\
  length (level_priors 320 240 0) = (40 * 30 * 3)%nat /\
  length (generatePriors 320 240) = 4385%nat.
Proof.
  split; [|split; [|split; [|split; [|split]]]].
  - reflexivity.
  - reflexivity.
  - reflexivity.
  - reflexivity.
  - unfold level_priors. rewrite generate_level_spec by lia.
    cbn [app]. rewrite spec_level_priors_length. reflexivity.
  - rewrite generatePriors_length. reflexivity.
Qed.

(** ** Order of IEEE values *)


Lemma SFcompare_antisym (x y : spec_float) :
  SFcompare y x = option_map CompOpp (SFcompare x y).
Proof.
  destruct x as [[]|[]| |[] mx ex], y as [[]|[]| |[] my ey]; simpl; try reflexivity;
    rewrite (Z.compare_antisym ex ey); destruct (ex ?= ey); simpl; try reflexivity;
    rewrite (Pos.compare_cont_antisym mx my Eq); simpl;
    now rewrite ?CompOpp_involutive.
Qed.

Lemma SFcompare_total (x y : spec_float) :
  is_nan x = false -> is_nan y = false -> exists c, SFcompare x y = Some c.
Proof.
  destruct x as [[]|[]| |[] mx ex], y as [[]|[]| |[] my ey]; simpl;
    intros; try discriminate; eexists; reflexivity.
Qed.

Lemma SFleb_not_nan (x y : spec_float) :
  SFleb x y = true -> is_nan x = false /\ is_nan y = false.
Proof. destruct x as [[]|[]| |[] mx ex], y; simpl; intros; try discriminate; auto. Qed.

Lemma SFltb_SFleb (x y : spec_float) : SFltb x y = true -> SFleb x y = true.
Proof. unfold SFltb, SFleb. now destruct (SFcompare x y) as [[]|]. Qed.

Lemma SFeqb_SFleb (x y : spec_float) : SFeqb x y = true -> SFleb x y = true.
Proof. unfold SFeqb, SFleb. now destruct (SFcompare x y) as [[]|]. Qed.

Lemma SFltb_false_SFleb (x y : spec_float) :
  is_nan x = false -> is_nan y = false -> SFltb x y = false -> SFleb y x = true.
Proof.
  intros Hx Hy. unfold SFltb, SFleb. rewrite (SFcompare_antisym x y).
  destruct (SFcompare_total x y Hx Hy) as [c ->]. now destruct c.
Qed.

Lemma SFltb_SFeqb_false (x y : spec_float) : SFltb x y = true -> SFeqb y x = false.
Proof.
  unfold SFltb, SFeqb. rewrite (SFcompare_antisym x y).
  now destruct (SFcompare x y) as [[]|].
Qed.

Lemma SFleb_refl (x : spec_float) : is_nan x = false -> SFleb x x = true.
Proof.
  destruct x as [[]|[]| |[] m e]; simpl; try discriminate; intros _; try reflexivity;
    unfold SFleb; simpl; rewrite Z.compare_refl, Pos.compare_cont_refl; reflexivity.
Qed.

Lemma compare_cont_Eq (p q : positive) : Pos.compare_cont Eq p q = (p ?= q)%positive.
Proof. reflexivity. Qed.

Lemma SFleb_trans (x y z : spec_float) :
  SFleb x y = true -> SFleb y z = true -> SFleb x z = true.
Proof.
  unfold SFleb.
  destruct x as [[]|[]| |[] mx ex], y as [[]|[]| |[] my ey], z as [[]|[]| |[] mz ez];
    cbn [SFcompare]; try reflexivity; try discriminate;
    change (Pos.compare_cont Eq mx my) with (mx ?= my)%positive;
    change (Pos.compare_cont Eq my mz) with (my ?= mz)%positive;
    change (Pos.compare_cont Eq mx mz) with (mx ?= mz)%positive;
    destruct (Z.compare_spec ex ey), (Z.compare_spec ey ez), (Z.compare_spec ex ez);
    try lia; cbv iota; try reflexivity; try discriminate;
    destruct (Pos.compare_spec mx my), (Pos.compare_spec my mz), (Pos.compare_spec mx mz);
    try lia; cbn [CompOpp]; try reflexivity; try discriminate.
Qed.

(** ** Decoding *)


Lemma fold_left_traverse {A B : Type} (g : A -> option B) (l : list A) (acc : list B) :
  fold_left (fun acc a => bs <- acc ;; b <- g a ;; Some (bs ++ [b])) l (Some acc)
  = (bs <- traverse g l ;; Some (acc ++ bs)).
Proof.
  revert acc. induction l as [|a l IH]; intros acc; simpl.
  - now rewrite app_nil_r.
  - destruct (g a) as [b|].
    + rewrite IH. destruct (traverse g l); [|reflexivity].
      now rewrite <- app_assoc.
    + clear IH. induction l; simpl; auto.
Qed.

Lemma traverse_nth {A B : Type} (g : A -> option B) (l : list A) (bs : list B) :
  traverse g l = Some bs ->
  length bs = length l /\
  forall k a, nth_error l k = Some a -> exists b, nth_error bs k = Some b /\ g a = Some b.
Proof.
  revert bs. induction l as [|a l IH]; intros bs; simpl.
  - intros [= <-]. split; [reflexivity|]. intros [|k] a; discriminate.
  - destruct (g a) as [b|] eqn:Hb; [|discriminate].
    destruct (traverse g l) as [bs'|]; [|discriminate].
    intros [= <-]. destruct (IH bs' eq_refl) as [Hlen Hnth].
    split; [simpl; congruence|].
    intros [|k] a'; simpl.
    + intros [= <-]. eauto.
    + apply Hnth.
Qed.

Lemma traverse_total {A B : Type} (g : A -> option B) (l : list A) :
  (forall a, In a l -> exists b, g a = Some b) -> exists bs, traverse g l = Some bs.
Proof.
  induction l as [|a l IH]; intros Hg; simpl; [eauto|].
  destruct (Hg a) as [b ->]; [now left|].
  destruct IH as [bs ->]; [intros; apply Hg; now right|]. eauto.
Qed.

Lemma SFleb_SFltb_false (x y : spec_float) : SFleb x y = true -> SFltb y x = false.
Proof.
  unfold SFleb, SFltb. rewrite (SFcompare_antisym x y).
  now destruct (SFcompare x y) as [[]|].
Qed.

(** The clamp of detect.cpp:146-152 maps every value that is not NaN into
    [0, 1] and leaves the values of [0, 1] as they are. *)
Lemma clamp_range (x : spec_float) :
  is_nan x = false ->
  f32.leb f32.zero (clamp x) = true /\ f32.leb (clamp x) f32.one = true.
Proof.
  intros Hx. unfold clamp, f32.ltb, f32.leb.
  destruct (SFltb x f32.zero) eqn:H0; [split; reflexivity|].
  destruct (SFltb f32.one x) eqn:H1; [split; reflexivity|].
  split; apply SFltb_false_SFleb; auto.
Qed.

Lemma clamp_id (x : spec_float) :
  f32.leb f32.zero x = true -> f32.leb x f32.one = true -> clamp x = x.
Proof.
  unfold clamp, f32.ltb, f32.leb. intros H0 H1.
  now rewrite (SFleb_SFltb_false _ _ H0), (SFleb_SFltb_false _ _ H1).
Qed.

Lemma clamp_below (x : spec_float) : f32.ltb x f32.zero = true -> clamp x = f32.zero.
Proof. unfold clamp. now intros ->. Qed.

Lemma clamp_above (x : spec_float) : f32.ltb f32.one x = true -> clamp x = f32.one.
Proof.
  unfold clamp. intros H1.
  assert (H0 : f32.ltb x f32.zero = false).
  { apply SFleb_SFltb_false. apply SFleb_trans with f32.one; [reflexivity|].
    now apply SFltb_SFleb. }
  now rewrite H0, H1.
Qed.

Section DecodeProperties.

Variable expf : spec_float -> spec_float.
Variables img_w img_h : Z.
Variable priors : list Rect2f.t.
Variables loc_v conf_v iou_v : list spec_float.

Let face_at := decode_face expf img_w img_h priors loc_v conf_v iou_v.
Let decoded := decode expf img_w img_h priors loc_v conf_v iou_v.

Lemma decode_traverse : decoded = traverse face_at (seq 0 (length priors)).
Proof.
  unfold decoded, decode, for_index.
  rewrite (fold_left_traverse face_at).
  now destruct (traverse face_at (seq 0 (length priors))).
Qed.


Lemma decode_face_total (i : nat) :
  enough_rows priors loc_v conf_v iou_v -> (i < length priors)%nat ->
  exists f, face_at i = Some f.
Proof.
  intros (Hloc & Hconf & Hiou) Hi.
  unfold face_at, decode_face.
  repeat match goal with
         | |- context [nth_error ?l ?k] =>
             let E := fresh "E" in
             destruct (nth_error l k) eqn:E;
             [clear E | apply nth_error_None in E; lia]
         end.
  eauto.
Qed.

(** With enough rows the decoding loop runs to its end and yields one
    candidate per prior, the i-th being the loop body's result at [i]. *)
Lemma decode_total :
  enough_rows priors loc_v conf_v iou_v ->
  exists faces, decoded = Some faces /\ length faces = length priors /\
    forall i, (i < length priors)%nat ->
      exists f, nth_error faces i = Some f /\ face_at i = Some f.
Proof.
  intros Hrows. rewrite decode_traverse.
  destruct (traverse_total face_at (seq 0 (length priors))) as [faces Hfaces].
  { intros i Hi. apply in_seq in Hi. apply decode_face_total; [assumption|lia]. }
  exists faces. split; [assumption|].
  destruct (traverse_nth _ _ _ Hfaces) as [Hlen Hnth].
  rewrite length_seq in Hlen. split; [assumption|].
  intros i Hi. apply (Hnth i i).
  rewrite nth_error_nth' with (d := 0%nat) by (rewrite length_seq; lia).
  now rewrite seq_nth.
Qed.

End DecodeProperties.

(** C3: for every anchor [i] the decoder's fused score is
    sqrt(face_conf[i] * clamp(iou[i], 0, 1)): the IoU is clamped first (to 0
    below 0, to 1 above 1, unchanged inside [0, 1], hence into [0, 1] unless
    it is NaN), the product is taken next and the square root last. *)
Theorem fused_score_formula expf img_w img_h priors loc_v conf_v iou_v :
  enough_rows priors loc_v conf_v iou_v ->
  exists faces,
    decode expf img_w img_h priors loc_v conf_v iou_v = Some faces /\
    length faces = length priors /\
    forall i, (i < length priors)%nat ->
      exists f face_conf iou_i,
        nth_error faces i = Some f /\
        nth_error conf_v (i*2+1) = Some face_conf /\
        nth_error iou_v i = Some iou_i /\
        score f = f32.sqrt (face_conf * clamp iou_i)%f32 /\
        (f32.ltb iou_i f32.zero = true -> clamp iou_i = f32.zero) /\
        (f32.ltb f32.one iou_i = true -> clamp iou_i = f32.one) /\
        (f32.leb f32.zero iou_i = true -> f32.leb iou_i f32.one = true ->
         clamp iou_i = iou_i) /\
        (is_nan iou_i = false ->
         f32.leb f32.zero (clamp iou_i) = true /\
         f32.leb (clamp iou_i) f32.one = true).
Proof.
  intros Hrows.
  destruct (decode_total expf img_w img_h _ _ _ _ Hrows) as (faces & Hdec & Hlen & Hnth).
  exists faces. split; [assumption|]. split; [assumption|].
  intros i Hi. destruct (Hnth i Hi) as (f & Hf & Hface).
  unfold decode_face in Hface.
  destruct (nth_error priors i) as [prior|]; [|discriminate].
  destruct (nth_error conf_v (i*2+1)) as [face_conf|]; [|discriminate].
  destruct (nth_error iou_v i) as [iou_i|]; [|discriminate].
  repeat match type of Hface with
         | context [nth_error ?l ?k] => destruct (nth_error l k); [|discriminate]
         end.
  injection Hface as <-.
  eexists; exists face_conf, iou_i.
  split; [exact Hf|]. cbn [score].
  repeat split; auto using clamp_below, clamp_above, clamp_id;
    now apply clamp_range.
Qed.

(** C4: for every anchor [i], with [prior = priors[i]] and
    [loc k = loc_v[i*14+k]], the decoded box has
    cx_px = (prior.cx + loc 0 * 0.1 * prior.base_w) * image_width,
    cy_px = (prior.cy + loc 1 * 0.1 * prior.base_h) * image_height,
    w_px = prior.base_w * exp(loc 2 * 0.1) * image_width,
    h_px = prior.base_h * exp(loc 3 * 0.2) * image_height,
    top-left corner (cx_px - w_px/2, cy_px - h_px/2), and each of the five
    landmarks is (prior.cx + loc k * 0.1 * prior.base_w) * image_width in x
    and (prior.cy + loc (k+1) * 0.1 * prior.base_h) * image_height in y,
    for k = 4, 6, 8, 10, 12.  The two variances are written out as the
    binary32 numbers the code stores in [variance]: [tenth] =
    13421773 * 2^-27 and [fifth] = 13421773 * 2^-26, each within half a
    unit in the last place (2^-28, 2^-27) of 0.1 and 0.2; only the height
    uses [fifth]. *)
Theorem box_and_landmark_decode expf img_w img_h priors loc_v conf_v iou_v :
  enough_rows priors loc_v conf_v iou_v ->
  let tenth := S754_finite false 13421773 (-27) in
  let fifth := S754_finite false 13421773 (-26) in
  (exists q1 q2,
     SF2Q tenth = Some q1 /\ SF2Q fifth = Some q2 /\
     ((1 # 10) - (1 # 2 ^ 28) <= q1 /\ q1 <= (1 # 10) + (1 # 2 ^ 28))%Q /\
     ((2 # 10) - (1 # 2 ^ 27) <= q2 /\ q2 <= (2 # 10) + (1 # 2 ^ 27))%Q) /\
  exists faces,
    decode expf img_w img_h priors loc_v conf_v iou_v = Some faces /\
    length faces = length priors /\
    forall i, (i < length priors)%nat ->
      exists f prior,
        nth_error faces i = Some f /\
        nth_error priors i = Some prior /\
        let loc k := nth (i*14+k) loc_v f32.zero in
        let image_width := f32.of_int img_w in
        let image_height := f32.of_int img_h in
        let two := f32.of_int 2 in
        let cx_px := ((Rect2f.x prior + loc 0%nat * tenth * Rect2f.width prior)
                      * image_width)%f32 in
        let cy_px := ((Rect2f.y prior + loc 1%nat * tenth * Rect2f.height prior)
                      * image_height)%f32 in
        let w_px := (Rect2f.width prior * expf (loc 2%nat * tenth)
                     * image_width)%f32 in
        let h_px := (Rect2f.height prior * expf (loc 3%nat * fifth)
                     * image_height)%f32 in
        let landmark_x k :=
          ((Rect2f.x prior + loc k * tenth * Rect2f.width prior) * image_width)%f32 in
        let landmark_y k :=
          ((Rect2f.y prior + loc k * tenth * Rect2f.height prior) * image_height)%f32 in
        tl_x f = (cx_px - w_px / two)%f32 /\
        tl_y f = (cy_px - h_px / two)%f32 /\
        w f = w_px /\ h f = h_px /\
        re_x f = landmark_x 4%nat /\ re_y f = landmark_y 5%nat /\
        le_x f = landmark_x 6%nat /\ le_y f = landmark_y 7%nat /\
        nt_x f = landmark_x 8%nat /\ nt_y f = landmark_y 9%nat /\
        rcm_x f = landmark_x 10%nat /\ rcm_y f = landmark_y 11%nat /\
        lcm_x f = landmark_x 12%nat /\ lcm_y f = landmark_y 13%nat.
Proof.
  intros Hrows tenth fifth. split.
  { exists (13421773 # 2 ^ 27)%Q, (13421773 # 2 ^ 26)%Q.
    split; [reflexivity|]. split; [reflexivity|].
    split; split; vm_compute; discriminate. }
  change tenth with variance0. change fifth with variance1. clear tenth fifth.
  destruct (decode_total expf img_w img_h _ _ _ _ Hrows) as (faces & Hdec & Hlen & Hnth).
  exists faces. split; [assumption|]. split; [assumption|].
  intros i Hi. destruct (Hnth i Hi) as (f & Hf & Hface).
  unfold decode_face in Hface.
  destruct (nth_error priors i) as [prior|]; [|discriminate].
  destruct (nth_error conf_v (i*2+1)) as [face_conf|]; [|discriminate].
  destruct (nth_error iou_v i) as [iou_i|]; [|discriminate].
  repeat match type of Hface with
         | context [nth_error ?l ?k] =>
             let E := fresh "E" in
             destruct (nth_error l k) eqn:E; [|discriminate];
             apply (nth_error_nth _ _ f32.zero) in E;
             rewrite <- E in Hface; clear E
         end.
  injection Hface as <-.
  eexists; exists prior. split; [exact Hf|]. split; [reflexivity|].
  cbv zeta. unfold decode_x, decode_y. cbn [tl_x tl_y w h re_x re_y le_x le_y
    nt_x nt_y rcm_x rcm_y lcm_x lcm_y].
  repeat split.
Qed.

(** The float constants of the variance pair are the binary32 values
    nearest to 0.1 and 0.2. *)
Lemma variance_values :
  SF2Q variance0 = Some (13421773 # 2 ^ 27)%Q /\
  SF2Q variance1 = Some (13421773 # 2 ^ 26)%Q.
Proof. split; reflexivity. Qed.

(** ** Subsequences *)


Lemma subseq_refl {A : Type} (l : list A) : subseq l l.
Proof. induction l; auto. Qed.

Lemma subseq_trans {A : Type} (l1 l2 l3 : list A) :
  subseq l1 l2 -> subseq l2 l3 -> subseq l1 l3.
Proof.
  intros H12 H23. revert l1 H12.
  induction H23 as [|a l2 l3 H IH|a l2 l3 H IH]; intros l1 H12; auto.
  inversion H12; subst; auto.
Qed.

Lemma subseq_In {A : Type} (l l' : list A) (a : A) : subseq l l' -> In a l -> In a l'.
Proof. induction 1; simpl; intuition. Qed.

Lemma subseq_Forall {A : Type} (P : A -> Prop) (l l' : list A) :
  subseq l l' -> Forall P l' -> Forall P l.
Proof.
  intros Hs Hall. apply Forall_forall. intros a Ha.
  eapply Forall_forall; eauto using subseq_In.
Qed.

Lemma subseq_ForallOrdPairs {A : Type} (R : A -> A -> Prop) (l l' : list A) :
  subseq l l' -> ForallOrdPairs R l' -> ForallOrdPairs R l.
Proof.
  induction 1 as [|a l l' H IH|a l l' H IH]; intros HR.
  - constructor.
  - inversion HR; subst; auto.
  - inversion HR; subst. constructor; eauto using subseq_Forall.
Qed.

Lemma filter_subseq {A : Type} (f : A -> bool) (l : list A) : subseq (filter f l) l.
Proof. induction l as [|a l IH]; simpl; [auto|]. destruct (f a); auto. Qed.

Lemma subseq_nil_l {A : Type} (l : list A) : subseq [] l.
Proof. induction l; auto. Qed.

Lemma firstn_subseq {A : Type} (n : nat) (l : list A) : subseq (firstn n l) l.
Proof.
  revert n; induction l as [|a l IH]; intros [|n]; simpl;
    auto using subseq_nil_l.
Qed.

Lemma ForallOrdPairs_nth {A : Type} (R : A -> A -> Prop) (l : list A) :
  ForallOrdPairs R l ->
  forall i j a b, (i < j)%nat -> nth_error l i = Some a -> nth_error l j = Some b -> R a b.
Proof.
  induction 1 as [|a0 l Hall HR IH]; intros i j a b Hij Hi Hj.
  - destruct i; discriminate.
  - destruct j as [|j]; [lia|]. simpl in Hj. destruct i as [|i]; simpl in Hi.
    + injection Hi as ->. apply nth_error_In in Hj.
      eapply Forall_forall in Hall; eauto.
    + apply (IH i j); auto; lia.
Qed.

Lemma ForallOrdPairs_Forall2 {A B : Type} (P : A -> B -> Prop)
    (R : A -> A -> Prop) (R' : B -> B -> Prop) (l : list A) (l' : list B) :
  (forall a b a' b', P a a' -> P b b' -> R a b -> R' a' b') ->
  Forall2 P l l' -> ForallOrdPairs R l -> ForallOrdPairs R' l'.
Proof.
  intros Htransfer H2. induction H2 as [|a a' l l' Ha H2 IH]; intros HR.
  - constructor.
  - inversion HR as [|? ? Hall HR']; subst. constructor; [|auto].
    clear IH HR HR'. induction H2 as [|b b' l l' Hb H2 IH]; [constructor|].
    inversion Hall; subst. constructor; eauto.
Qed.

(** ** Suppression *)

Module NMSFacts.
Import NMS.

Lemma candidates_from (s : nat) (scores : list spec_float) (bboxes : list Rect2i.t)
    (sc : spec_float) (i : nat) (b : Rect2i.t) :
  In (sc, (i, b)) (combine scores (combine (seq s (length scores)) bboxes)) ->
  (s <= i)%nat /\ nth_error scores (i - s) = Some sc /\ nth_error bboxes (i - s) = Some b.
Proof.
  revert s bboxes. induction scores as [|sc0 scores IH]; intros s bboxes; simpl; [tauto|].
  destruct bboxes as [|b0 bboxes]; simpl; [tauto|].
  intros [[= -> -> ->]|Hin].
  - rewrite Nat.sub_diag. auto.
  - apply IH in Hin. destruct Hin as (Hle & Hs & Hb).
    replace (i - s)%nat with (S (i - S s)) by lia. simpl. split; [lia|auto].
Qed.

(** A candidate carries the score and the box found at its index. *)
Lemma candidates_lookup (bboxes : list Rect2i.t) (scores : list spec_float) (c : Candidate) :
  In c (candidates bboxes scores) ->
  nth_error scores (c_index c) = Some (c_score c) /\
  nth_error bboxes (c_index c) = Some (c_box c).
Proof.
  unfold candidates. intros Hin. apply in_map_iff in Hin.
  destruct Hin as ([sc [i b]] & <- & Hin). simpl.
  apply candidates_from in Hin. rewrite Nat.sub_0_r in Hin. tauto.
Qed.


Lemma candidates_from_increasing (s : nat) (scores : list spec_float)
    (bboxes : list Rect2i.t) :
  ForallOrdPairs index_lt
    (map (fun p => mkCandidate (fst p) (fst (snd p)) (snd (snd p)))
         (combine scores (combine (seq s (length scores)) bboxes))).
Proof.
  revert s bboxes. induction scores as [|sc0 scores IH]; intros s bboxes; simpl;
    [constructor|].
  destruct bboxes as [|b0 bboxes]; simpl; [constructor|].
  constructor; [|apply IH].
  apply Forall_forall. intros c Hin. apply in_map_iff in Hin.
  destruct Hin as ([sc [i b]] & <- & Hin). apply candidates_from in Hin.
  unfold index_lt. simpl. lia.
Qed.

(** Candidates are listed by increasing anchor index. *)
Lemma candidates_increasing (bboxes : list Rect2i.t) (scores : list spec_float) :
  ForallOrdPairs index_lt (candidates bboxes scores).
Proof. apply candidates_from_increasing. Qed.

(** *** Sorting *)


Lemma insert_desc_In (c d : Candidate) (l : list Candidate) :
  In d (insert_desc c l) <-> d = c \/ In d l.
Proof.
  induction l as [|e l IH]; simpl; [intuition|].
  destruct (f32.ltb (c_score c) (c_score e)); simpl; intuition.
Qed.

Lemma sort_desc_In (d : Candidate) (l : list Candidate) :
  In d (sort_desc l) <-> In d l.
Proof.
  induction l as [|c l IH]; simpl; [tauto|].
  rewrite insert_desc_In, IH. intuition.
Qed.

Lemma insert_desc_ranked (c : Candidate) (l : list Candidate) :
  is_nan (c_score c) = false ->
  Forall (fun d => is_nan (c_score d) = false) l ->
  Forall (index_lt c) l ->
  ForallOrdPairs ranked_before l ->
  ForallOrdPairs ranked_before (insert_desc c l).
Proof.
  intros Hc. induction l as [|d l IH]; intros Hnan Hidx Hsorted; simpl.
  - repeat constructor.
  - inversion Hnan as [|? ? Hd Hnan']; subst.
    inversion Hidx as [|? ? Hcd Hidx']; subst.
    inversion Hsorted as [|? ? Hdl Hsorted']; subst.
    destruct (f32.ltb (c_score c) (c_score d)) eqn:Hlt.
    + constructor; [|auto].
      apply Forall_forall. intros e He. apply (proj1 (insert_desc_In _ _ _)) in He.
      destruct He as [->|He].
      * split; [now apply SFltb_SFleb|].
        intros Heq. apply SFltb_SFeqb_false in Hlt.
        unfold f32.eqb in Heq. congruence.
      * eapply Forall_forall in Hdl; eauto.
    + assert (Hle : f32.leb (c_score d) (c_score c) = true)
        by now apply SFltb_false_SFleb.
      constructor; [|assumption].
      constructor; [split; auto|].
      apply Forall_forall. intros e He.
      pose proof (proj1 (Forall_forall _ _) Hdl e He) as [Hed _].
      pose proof (proj1 (Forall_forall _ _) Hidx' e He) as Hce.
      split; [|auto].
      eapply SFleb_trans; eauto.
Qed.

(** Sorting candidates listed by increasing index ranks them by descending
    score, equal scores by increasing index. *)
Lemma sort_desc_ranked (l : list Candidate) :
  Forall (fun d => is_nan (c_score d) = false) l ->
  ForallOrdPairs index_lt l ->
  ForallOrdPairs ranked_before (sort_desc l).
Proof.
  induction l as [|c l IH]; intros Hnan Hidx; simpl; [constructor|].
  inversion Hnan as [|? ? Hc Hnan']; subst.
  inversion Hidx as [|? ? Hcl Hidx']; subst.
  apply insert_desc_ranked.
  - exact Hc.
  - apply Forall_forall. intros d Hd. apply (proj1 (sort_desc_In _ _)) in Hd.
    exact (proj1 (Forall_forall _ _) Hnan' d Hd).
  - apply Forall_forall. intros d Hd. apply (proj1 (sort_desc_In _ _)) in Hd.
    exact (proj1 (Forall_forall _ _) Hcl d Hd).
  - now apply IH.
Qed.

(** *** The greedy walk *)

Lemma walk_subseq (t : spec_float) (fuel : nat) (pool : list Candidate) :
  subseq (walk t fuel pool) pool.
Proof.
  revert pool. induction fuel as [|fuel IH]; intros [|c rest]; simpl;
    auto using subseq_nil_l.
  apply subseq_keep. eapply subseq_trans; [apply IH|apply filter_subseq].
Qed.

(** More rounds than candidates change nothing. *)
Lemma walk_fuel (t : spec_float) (fuel : nat) (pool : list Candidate) :
  (length pool <= fuel)%nat -> walk t fuel pool = walk t (length pool) pool.
Proof.
  revert fuel. induction pool as [pool IH] using (induction_ltof1 _ (@length _)).
  unfold ltof in IH. intros fuel Hfuel.
  destruct pool as [|c rest]; [now destruct fuel|].
  destruct fuel as [|fuel]; simpl in *; [lia|].
  f_equal.
  set (rest' := filter _ rest).
  assert (Hlen : (length rest' <= length rest)%nat) by apply filter_length_le.
  rewrite (IH rest') by lia.
  symmetry. apply IH; lia.
Qed.

(** No accepted candidate overlaps an earlier accepted one above the
    threshold. *)
Lemma walk_no_overlap (t : spec_float) (fuel : nat) (pool : list Candidate) :
  ForallOrdPairs (fun c d => overlaps t c d = false) (walk t fuel pool).
Proof.
  revert pool. induction fuel as [|fuel IH]; intros [|c rest]; simpl;
    try constructor; [|apply IH].
  eapply subseq_Forall; [apply walk_subseq|].
  apply Forall_forall. intros d Hd. apply filter_In in Hd.
  destruct Hd as [_ Hd]. now apply negb_true_iff in Hd.
Qed.

(** *** NMSBoxes *)


Lemma accepted_eligible bboxes scores score_threshold nms_threshold top_k c :
  In c (accepted bboxes scores score_threshold nms_threshold top_k) ->
  In c (candidates bboxes scores) /\ eligible score_threshold c = true.
Proof.
  unfold accepted, suppress. intros Hin.
  apply (subseq_In _ _ _ (walk_subseq _ _ _)) in Hin.
  apply (subseq_In _ _ _ (firstn_subseq _ _)) in Hin.
  apply (proj1 (sort_desc_In _ _)) in Hin. now apply filter_In in Hin.
Qed.

Lemma accepted_no_overlap bboxes scores score_threshold nms_threshold top_k :
  ForallOrdPairs (fun c d => overlaps nms_threshold c d = false)
    (accepted bboxes scores score_threshold nms_threshold top_k).
Proof. apply walk_no_overlap. Qed.

Lemma accepted_ranked bboxes scores score_threshold nms_threshold top_k :
  ForallOrdPairs ranked_before
    (accepted bboxes scores score_threshold nms_threshold top_k).
Proof.
  unfold accepted, suppress.
  eapply subseq_ForallOrdPairs; [apply walk_subseq|].
  eapply subseq_ForallOrdPairs; [apply firstn_subseq|].
  apply sort_desc_ranked.
  - apply Forall_forall. intros c Hc. apply filter_In in Hc.
    destruct Hc as [_ Hc]. now apply SFleb_not_nan in Hc.
  - eapply subseq_ForallOrdPairs; [apply filter_subseq|].
    apply candidates_increasing.
Qed.

End NMSFacts.

(** ** Rows selected by index *)

Lemma rows_at_Forall2 {A : Type} (m : list A) (idxs : list nat) (rows : list A) :
  rows_at m idxs = Some rows ->
  Forall2 (fun i r => nth_error m i = Some r) idxs rows.
Proof.
  revert rows. induction idxs as [|i idxs IH]; intros rows; simpl.
  - intros [= <-]. constructor.
  - destruct (nth_error m i) as [r|] eqn:Hr; [|discriminate].
    destruct (rows_at m idxs) as [rs|]; [|discriminate].
    intros [= <-]. constructor; auto.
Qed.

Lemma rows_at_total {A : Type} (m : list A) (idxs : list nat) :
  Forall (fun i => (i < length m)%nat) idxs -> exists rows, rows_at m idxs = Some rows.
Proof.
  induction 1 as [|i idxs Hi Hall [rows IH]]; simpl; [eauto|].
  destruct (nth_error m i) eqn:Hr; [|apply nth_error_None in Hr; lia].
  rewrite IH. eauto.
Qed.

Lemma Forall2_map_l {A B C : Type} (f : A -> B) (P : B -> C -> Prop) (l : list A) (l' : list C) :
  Forall2 P (map f l) l' -> Forall2 (fun a c => P (f a) c) l l'.
Proof.
  revert l'. induction l as [|a l IH]; intros l' H; inversion H; subst; constructor; auto.
Qed.

Lemma Forall2_impl_In {A B : Type} (P Q : A -> B -> Prop) (l : list A) (l' : list B) :
  (forall a b, In a l -> P a b -> Q a b) -> Forall2 P l l' -> Forall2 Q l l'.
Proof.
  intros Himpl H. induction H as [|a b l l' Hab H IH]; constructor.
  - apply Himpl; [now left|assumption].
  - apply IH. intros; apply Himpl; [now right|assumption].
Qed.

Lemma Forall2_Forall_r {A B : Type} (P : A -> B -> Prop) (Q : B -> Prop) (l : list A) (l' : list B) :
  (forall a b, In a l -> P a b -> Q b) -> Forall2 P l l' -> Forall Q l'.
Proof.
  intros Himpl H. induction H as [|a b l l' Hab H IH]; constructor.
  - apply (Himpl a b); [now left|assumption].
  - apply IH. intros a' b' Ha' Hp. apply (Himpl a' b'); [now right|assumption].
Qed.

(** ** Post-processing *)

Section PostProcessProperties.

Variable expf : spec_float -> spec_float.
Variable unrepresentable_to_int : spec_float -> Z.
Variables img_w img_h : Z.
Variable priors : list Rect2f.t.
Variables loc_v conf_v iou_v : list spec_float.
Variables scoreThreshold nmsThreshold : spec_float.
Variable topK : Z.

Let box := face_box unrepresentable_to_int.
Let kept := keepIdx unrepresentable_to_int scoreThreshold nmsThreshold topK.
Let accepted := accepted_faces unrepresentable_to_int scoreThreshold nmsThreshold topK.
Let stands := stands_for unrepresentable_to_int.
Let result :=
  postProcess expf unrepresentable_to_int img_w img_h priors loc_v conf_v iou_v
              scoreThreshold nmsThreshold topK.

Lemma accepted_faces_lookup (faces : list Face) (c : NMS.Candidate) :
  In c (accepted faces) ->
  NMS.eligible scoreThreshold c = true /\
  exists f, stands faces c f.
Proof.
  intros Hin. apply NMSFacts.accepted_eligible in Hin.
  destruct Hin as [Hin Hel]. split; [assumption|].
  apply NMSFacts.candidates_lookup in Hin. destruct Hin as [Hs Hb].
  rewrite nth_error_map in Hs, Hb.
  destruct (nth_error faces (NMS.c_index c)) as [f|] eqn:Hf; [|discriminate].
  exists f. unfold stands, stands_for. simpl in Hs, Hb.
  injection Hs as Hs. injection Hb as Hb. repeat split; auto.
Qed.

(** The rows returned are the decoded rows at the kept indices; when
    suppression runs these are the accepted candidates' rows. *)
Lemma postProcess_rows (faces : list Face) :
  decode expf img_w img_h priors loc_v conf_v iou_v = Some faces ->
  exists rows,
    result = Some rows /\
    Forall2 (fun i f => nth_error faces i = Some f) (kept faces) rows /\
    ((1 < length faces)%nat ->
     Forall2 (stands faces) (accepted faces) rows) /\
    ((length faces <= 1)%nat -> rows = faces).
Proof.
  intros Hdec. unfold result, postProcess, kept, keepIdx.
  rewrite Hdec. destruct (Nat.ltb_spec 1 (length faces)) as [Hlen|Hlen].
  - fold box. fold (accepted faces).
    destruct (rows_at_total faces (map NMS.c_index (accepted faces))) as [rows Hrows].
    { apply Forall_forall. intros i Hi. apply in_map_iff in Hi.
      destruct Hi as (c & <- & Hc).
      apply accepted_faces_lookup in Hc. destruct Hc as (_ & f & Hf & _).
      apply nth_error_Some. congruence. }
    exists rows. split; [exact Hrows|].
    apply rows_at_Forall2 in Hrows. split; [exact Hrows|].
    split; [intros _|lia].
    apply Forall2_map_l in Hrows.
    eapply Forall2_impl_In; [|exact Hrows].
    intros c f Hc Hf. cbv beta in Hf.
    apply accepted_faces_lookup in Hc. destruct Hc as (_ & f' & Hf' & Hs & Hb).
    assert (f' = f) by congruence. subst f'. repeat split; assumption.
  - exists faces. split; [reflexivity|]. split; [|split; [lia|reflexivity]].
    destruct faces as [|f [|g faces]]; simpl in *; try lia; repeat constructor.
Qed.

End PostProcessProperties.

Lemma Forall2_nth_error {A B : Type} (P : A -> B -> Prop) (l : list A) (l' : list B) :
  Forall2 P l l' ->
  forall k a b, nth_error l k = Some a -> nth_error l' k = Some b -> P a b.
Proof.
  induction 1 as [|a0 b0 l l' H0 H IH]; intros [|k] a b Ha Hb; simpl in *;
    try discriminate.
  - congruence.
  - eauto.
Qed.

Lemma Forall2_nth_error_l {A B : Type} (P : A -> B -> Prop) (l : list A) (l' : list B) :
  Forall2 P l l' ->
  forall k b, nth_error l' k = Some b -> exists a, nth_error l k = Some a /\ P a b.
Proof.
  induction 1 as [|a0 b0 l l' H0 H IH]; intros [|k] b Hb; simpl in *;
    try discriminate.
  - injection Hb as <-. eauto.
  - eauto.
Qed.

Lemma iou_sym (a b : Rect2i.t) : NMS.iou a b = NMS.iou b a.
Proof.
  unfold NMS.iou, NMS.union_area, NMS.inter_area.
  rewrite (Z.max_comm (Rect2i.x a)), (Z.max_comm (Rect2i.y a)).
  rewrite (Z.min_comm (Rect2i.x a + _)), (Z.min_comm (Rect2i.y a + _)).
  rewrite (Z.add_comm (NMS.area a)). reflexivity.
Qed.

(** ** Conversion to [int] *)

Lemma Qtrunc_nonneg (q : Q) : (0 <= q)%Q -> Qtrunc q = Qfloor q.
Proof.
  intros Hq. unfold Qtrunc. apply Qle_bool_iff in Hq. now rewrite Hq.
Qed.

Lemma Qtrunc_neg (q : Q) : (q < 0)%Q -> Qtrunc q = Qceiling q.
Proof.
  intros Hq. unfold Qtrunc. destruct (Qle_bool 0 q) eqn:E; [|reflexivity].
  apply Qle_bool_iff in E. exfalso. apply (Qlt_irrefl 0).
  eapply Qle_lt_trans; eauto.
Qed.

Lemma SF2Q_finite (s : bool) (m : positive) (e : Z) :
  (inject_Z (cond_Zopp s (Z.pos m)) * Qpower 2 e ==
   if 0 <=? e then inject_Z (cond_Zopp s (Z.pos m) * 2 ^ e)
   else inject_Z (cond_Zopp s (Z.pos m)) / inject_Z (2 ^ (- e)))%Q.
Proof.
  destruct (Z.leb_spec 0 e) as [He|He].
  - rewrite inject_Z_mult, (Zpower_Qpower 2 e He). reflexivity.
  - rewrite (Zpower_Qpower 2 (- e)) by lia.
    replace e with (- - e) at 1 by lia. rewrite Qpower_opp. reflexivity.
Qed.

Lemma truncate_finite (s : bool) (m : positive) (e : Z) :
  cond_Zopp s (match e with
               | Z.neg p => Z.pos m / 2 ^ Z.pos p
               | _ => Z.pos m * 2 ^ e
               end)
  = Qtrunc (inject_Z (cond_Zopp s (Z.pos m)) * Qpower 2 e).
Proof.
  pose proof (SF2Q_finite s m e) as Hq.
  destruct (Z.leb_spec 0 e) as [He|He].
  - assert (Hz : cond_Zopp s (match e with
                              | Z.neg p => Z.pos m / 2 ^ Z.pos p
                              | _ => Z.pos m * 2 ^ e
                              end)
                 = cond_Zopp s (Z.pos m) * 2 ^ e).
    { destruct e as [|p|p]; [| |lia]; destruct s; cbn [cond_Zopp]; ring. }
    rewrite Hz. unfold Qtrunc.
    rewrite (Qfloor_comp _ _ Hq), (Qceiling_comp _ _ Hq), Qfloor_Z, Qceiling_Z.
    now destruct (Qle_bool 0 _).
  - destruct e as [|p|p]; try lia. change (- Z.neg p) with (Z.pos p) in Hq.
    assert (HP : 0 < 2 ^ Z.pos p) by (apply Z.pow_pos_nonneg; lia).
    assert (HPQ : (0 < inject_Z (2 ^ Z.pos p))%Q) by (change 0%Q with (inject_Z 0); rewrite <- Zlt_Qlt; exact HP).
    destruct s; cbn [cond_Zopp] in *.
    + assert (Hneg : (inject_Z (- Z.pos m) * Qpower 2 (Z.neg p) < 0)%Q).
      { rewrite Hq. apply Qlt_shift_div_r; [exact HPQ|].
        rewrite Qmult_0_l. change 0%Q with (inject_Z 0). rewrite <- Zlt_Qlt. lia. }
      rewrite (Qtrunc_neg _ Hneg). unfold Qceiling.
      assert (Hopp : (- (inject_Z (- Z.pos m) * Qpower 2 (Z.neg p)) ==
                      inject_Z (Z.pos m) / inject_Z (2 ^ Z.pos p))%Q).
      { rewrite Hq, inject_Z_opp.
        field. intros H0. rewrite H0 in HPQ. now apply Qlt_irrefl in HPQ. }
      rewrite (Qfloor_comp _ _ Hopp), <- Zdiv_Qdiv. reflexivity.
    + assert (Hpos : (0 <= inject_Z (Z.pos m) * Qpower 2 (Z.neg p))%Q).
      { rewrite Hq. apply Qle_shift_div_l; [exact HPQ|].
        rewrite Qmult_0_l. change 0%Q with (inject_Z 0). rewrite <- Zle_Qle. lia. }
      rewrite (Qtrunc_nonneg _ Hpos), (Qfloor_comp _ _ Hq), <- Zdiv_Qdiv. reflexivity.
Qed.

(** [truncate] rounds the exact value toward zero. *)
Lemma truncate_exact (x : spec_float) (z : Z) (q : Q) :
  truncate x = Some z -> SF2Q x = Some q -> z = Qtrunc q.
Proof.
  destruct x as [s|s| |s m e]; try discriminate.
  - intros Ht Hq. inversion Ht. inversion Hq. reflexivity.
  - unfold truncate, SF2Q. intros Ht Hq.
    assert (Hz := f_equal (fun o => match o with Some v => v | None => z end) Ht).
    assert (Hv := f_equal (fun o => match o with Some v => v | None => q end) Hq).
    cbv beta iota in Hz, Hv. rewrite <- Hz, <- Hv. apply truncate_finite.
Qed.

(** Conversion to [int] truncates whenever the integral part fits. *)
Lemma float_to_int_truncate ub (x : spec_float) (z : Z) :
  truncate x = Some z -> INT_MIN <= z <= INT_MAX -> float_to_int ub x = z.
Proof.
  intros Ht Hz. unfold float_to_int. rewrite Ht.
  destruct (Z.leb_spec INT_MIN z), (Z.leb_spec z INT_MAX); simpl; lia.
Qed.

(** A finite [float] of exact value [q] converts to [q] rounded toward
    zero, whenever that fits [int]. *)
Lemma float_to_int_exact ub (x : spec_float) (q : Q) :
  SF2Q x = Some q -> INT_MIN <= Qtrunc q <= INT_MAX -> float_to_int ub x = Qtrunc q.
Proof.
  intros Hq Hrange.
  assert (Ht : exists z, truncate x = Some z)
    by (destruct x; try discriminate; unfold truncate; eauto).
  destruct Ht as [z Ht].
  pose proof (truncate_exact x z q Ht Hq) as ->.
  now apply float_to_int_truncate.
Qed.

(** The model's binary32 and binary64 operations on known values:
    sqrt(2), 1/3, 0.1 narrowed from double, and 2^24 + 1, which rounds to
    even. *)
Example ieee_examples :
  f32.sqrt (f32.of_int 2) = S754_finite false 11863283 (-23) /\
  f32.div (f32.of_int 1) (f32.of_int 3) = S754_finite false 11184811 (-25) /\
  f64.to_f32 f64.lit_0_1 = S754_finite false 13421773 (-27) /\
  f32.of_int 16777217 = S754_finite false 8388608 1.
Proof.
  split; [vm_compute; reflexivity|].
  split; [vm_compute; reflexivity|].
  split; vm_compute; reflexivity.
Qed.

(** C5: whatever the resolution and the tensors (with at least one row per
    prior), every detection the pipeline returns has a fused score of at
    least [score_threshold]. The generator never yields exactly one prior, so
    the branch that returns a single candidate unfiltered is never taken
    with a candidate in it. *)
Theorem detections_meet_score_threshold expf ub img_w img_h loc_v conf_v iou_v
    scoreThreshold nmsThreshold topK :
  enough_rows (generatePriors img_w img_h) loc_v conf_v iou_v ->
  exists rows,
    detect expf ub img_w img_h loc_v conf_v iou_v scoreThreshold nmsThreshold topK
      = Some rows /\
    Forall (fun f => f32.leb scoreThreshold (score f) = true) rows.
Proof.
  intros Hrows.
  destruct (decode_total expf img_w img_h _ _ _ _ Hrows) as (faces & Hdec & Hlen & _).
  destruct (postProcess_rows expf ub img_w img_h _ _ _ _
              scoreThreshold nmsThreshold topK faces Hdec)
    as (rows & Hpost & _ & Hnms & Hfew).
  exists rows. split; [exact Hpost|].
  destruct (generatePriors_length_cases img_w img_h) as [Hnil|Hmany].
  - rewrite Hnil in Hlen. simpl in Hlen.
    rewrite Hfew by lia. apply length_zero_iff_nil in Hlen. subst faces. constructor.
  - eapply Forall2_Forall_r; [|apply Hnms; lia].
    intros c f Hc (_ & Hs & _). cbv beta.
    apply accepted_faces_lookup in Hc. destruct Hc as [Hel _].
    unfold NMS.eligible in Hel. now rewrite <- Hs.
Qed.

(** C6, amended: for every two distinct detections returned, the IoU of
    their boxes with x, y, width and height truncated to integers, as
    suppression compares them, does not exceed [nms_threshold]. *)
Theorem detections_truncated_iou_bounded expf ub img_w img_h priors loc_v conf_v iou_v
    scoreThreshold nmsThreshold topK :
  enough_rows priors loc_v conf_v iou_v ->
  exists rows,
    postProcess expf ub img_w img_h priors loc_v conf_v iou_v
                scoreThreshold nmsThreshold topK = Some rows /\
    forall i j f g, i <> j ->
      nth_error rows i = Some f -> nth_error rows j = Some g ->
      Q_gt_float (NMS.iou (face_box ub f) (face_box ub g)) nmsThreshold = false.
Proof.
  intros Hrows.
  destruct (decode_total expf img_w img_h _ _ _ _ Hrows) as (faces & Hdec & Hlen & _).
  destruct (postProcess_rows expf ub img_w img_h _ _ _ _
              scoreThreshold nmsThreshold topK faces Hdec)
    as (rows & Hpost & _ & Hnms & Hfew).
  exists rows. split; [exact Hpost|].
  assert (Hpairs : ForallOrdPairs
            (fun f g => Q_gt_float (NMS.iou (face_box ub f) (face_box ub g))
                                   nmsThreshold = false) rows).
  { destruct (Nat.ltb_spec 1 (length faces)) as [Hmany|Hone].
    - eapply ForallOrdPairs_Forall2;
        [|apply Hnms; exact Hmany|apply NMSFacts.accepted_no_overlap].
      intros c d f g (_ & _ & Hc) (_ & _ & Hd) Hcd.
      unfold NMS.overlaps in Hcd. now rewrite <- Hc, <- Hd.
    - rewrite (Hfew Hone).
      destruct faces as [|f [|g faces]]; simpl in Hone; try lia; repeat constructor. }
  intros i j f g Hij Hf Hg.
  destruct (Nat.lt_total i j) as [Hlt|[Heq|Hgt]]; [|contradiction|].
  - exact (ForallOrdPairs_nth _ _ Hpairs i j f g Hlt Hf Hg).
  - rewrite iou_sym. exact (ForallOrdPairs_nth _ _ Hpairs j i g f Hgt Hg Hf).
Qed.

(** C7: the detections returned are ordered by descending fused score, and
    of two with equal scores the one of the smaller anchor index comes
    first; [keepIdx] lists the anchor indices of the rows returned. *)
Theorem detections_ranked expf ub img_w img_h priors loc_v conf_v iou_v
    scoreThreshold nmsThreshold topK :
  enough_rows priors loc_v conf_v iou_v ->
  exists faces rows,
    decode expf img_w img_h priors loc_v conf_v iou_v = Some faces /\
    postProcess expf ub img_w img_h priors loc_v conf_v iou_v
                scoreThreshold nmsThreshold topK = Some rows /\
    let anchors := keepIdx ub scoreThreshold nmsThreshold topK faces in
    Forall2 (fun i f => nth_error faces i = Some f) anchors rows /\
    forall p q i j f g, (p < q)%nat ->
      nth_error anchors p = Some i -> nth_error anchors q = Some j ->
      nth_error rows p = Some f -> nth_error rows q = Some g ->
      f32.leb (score g) (score f) = true /\
      (f32.eqb (score f) (score g) = true -> (i < j)%nat).
Proof.
  intros Hrows.
  destruct (decode_total expf img_w img_h _ _ _ _ Hrows) as (faces & Hdec & Hlen & _).
  destruct (postProcess_rows expf ub img_w img_h _ _ _ _
              scoreThreshold nmsThreshold topK faces Hdec)
    as (rows & Hpost & Hkept & Hnms & Hfew).
  exists faces, rows. split; [exact Hdec|]. split; [exact Hpost|].
  cbv zeta. split; [exact Hkept|].
  intros p q i j f g Hpq Hi Hj Hf Hg.
  destruct (Nat.ltb_spec 1 (length faces)) as [Hmany|Hone].
  - specialize (Hnms Hmany).
    unfold keepIdx in Hi, Hj.
    destruct (Nat.ltb_spec 1 (length faces)) as [_|]; [|lia].
    unfold NMS.NMSBoxes in Hi, Hj.
    fold (accepted_faces ub scoreThreshold nmsThreshold topK faces) in Hi, Hj.
    destruct (Forall2_nth_error_l _ _ _ Hnms p f Hf) as (c & Hc & Hcf).
    destruct (Forall2_nth_error_l _ _ _ Hnms q g Hg) as (d & Hd & Hdg).
    rewrite nth_error_map, Hc in Hi. rewrite nth_error_map, Hd in Hj.
    injection Hi as <-. injection Hj as <-.
    destruct Hcf as (_ & Hcs & _). destruct Hdg as (_ & Hds & _).
    pose proof (ForallOrdPairs_nth _ _
                  (NMSFacts.accepted_ranked _ _ scoreThreshold nmsThreshold topK)
                  p q c d Hpq Hc Hd) as [Hle Htie].
    rewrite <- Hcs, <- Hds. split; assumption.
  - rewrite (Hfew Hone) in Hf, Hg.
    assert (q < length faces)%nat by (apply nth_error_Some; congruence). lia.
Qed.

(** ** Rounding keeps products and square roots of [0, 1] in [0, 1] *)

Module UnitFacts.
Import Unit.

Lemma iter_pos_inv {A : Type} (f : A -> A) (Inv : Z -> A -> Prop) :
  (forall k x, 1 <= k -> Inv k x -> Inv (k - 1) (f x)) ->
  forall p k x, Z.pos p <= k -> Inv k x -> Inv (k - Z.pos p) (iter_pos f p x).
Proof.
  intros Hstep. induction p as [p IH|p IH|]; intros k x Hk Hx; simpl.
  - replace (k - Z.pos p~1) with (k - 1 - Z.pos p - Z.pos p) by lia.
    apply IH; [lia|]. apply IH; [lia|]. apply Hstep; [lia|assumption].
  - replace (k - Z.pos p~0) with (k - Z.pos p - Z.pos p) by lia.
    apply IH; [lia|]. apply IH; [lia|assumption].
  - apply Hstep; [lia|assumption].
Qed.

Lemma shr_1_below (k : Z) (mrs : shr_record) :
  1 <= k -> below k mrs -> below (k - 1) (shr_1 mrs).
Proof.
  intros Hk. unfold below, rec_upper.
  replace (2 ^ k) with (2 * 2 ^ (k - 1))
    by (rewrite <- Z.pow_succ_r by lia; f_equal; lia).
  assert (0 < 2 ^ (k - 1)) by (apply Z.pow_pos_nonneg; lia).
  generalize dependent (2 ^ (k - 1)). intros P HP.
  destruct mrs as [m r s].
  destruct m as [|[p|p|]|p]; destruct r, s;
    cbn [shr_1 shr_m shr_r shr_s orb]; lia.
Qed.

Lemma rec_upper_of_loc (m : Z) (l : location) :
  rec_upper (shr_record_of_loc m l) = upper m l.
Proof. destruct l as [|[]]; unfold rec_upper; simpl; lia. Qed.

Lemma shr_m_of_loc (m : Z) (l : location) : shr_m (shr_record_of_loc m l) = m.
Proof. now destruct l as [|[]]. Qed.

Lemma digits2_pos_size (p : positive) : digits2_pos p = Pos.size p.
Proof. induction p; simpl; congruence. Qed.

Lemma Zdigits2_le (m k : Z) : 0 <= m -> 0 <= k -> m <= 2 ^ k -> Zdigits2 m <= k + 1.
Proof.
  intros Hm Hk Hle. destruct m as [|p|p]; simpl; [lia| |lia].
  rewrite digits2_pos_size.
  pose proof (Pos.size_le p) as Hsize.
  apply Pos2Z.pos_le_pos in Hsize. rewrite Pos2Z.inj_pow in Hsize.
  change (Z.pos p~0) with (2 * Z.pos p) in Hsize.
  apply (Z.pow_le_mono_r_iff 2); [lia|lia|].
  rewrite Z.pow_add_r by lia. change (2 ^ 1) with 2. lia.
Qed.

(** Shifting to the format's exponent keeps a value of [0, 1] there. *)
Lemma shr_fexp_below (m e : Z) (l : location) :
  0 <= m -> e <= -23 -> upper m l <= 2 ^ (- e) ->
  let '(mrs, e') := shr_fexp f32.prec f32.emax m e l in
  e' <= -23 /\ below (- e') mrs.
Proof.
  intros Hm He Hup. unfold shr_fexp.
  assert (Hmle : m <= 2 ^ (- e)) by (destruct l; simpl in Hup; lia).
  pose proof (Zdigits2_le m (- e) Hm ltac:(lia) Hmle) as Hdig.
  assert (Hfexp : fexp f32.prec f32.emax (Zdigits2 m + e) <= -23)
    by (unfold fexp, emin, f32.prec, f32.emax; lia).
  assert (Hstart : below (- e) (shr_record_of_loc m l)).
  { unfold below. now rewrite shr_m_of_loc, rec_upper_of_loc. }
  set (n := fexp f32.prec f32.emax (Zdigits2 m + e) - e) in *.
  destruct n as [|p|p] eqn:Hn; simpl.
  - auto.
  - split; [lia|].
    replace (- (e + Z.pos p)) with (- e - Z.pos p) by lia.
    apply (iter_pos_inv shr_1 below); [exact shr_1_below|lia|exact Hstart].
  - auto.
Qed.

Lemma round_nearest_even_le (mrs : shr_record) :
  0 <= shr_m mrs ->
  0 <= round_nearest_even (shr_m mrs) (loc_of_shr_record mrs) <= rec_upper mrs.
Proof.
  destruct mrs as [m [] []]; unfold rec_upper; simpl; intros Hm;
    try destruct (Z.even m); lia.
Qed.

(** Rounding a value of [0, 1] to nearest-even gives a value of [0, 1]. *)
Lemma binary_round_aux_in_unit (m e : Z) (l : location) :
  0 <= m -> e <= -23 -> upper m l <= 2 ^ (- e) ->
  in_unit (binary_round_aux f32.prec f32.emax false m e l).
Proof.
  intros Hm He Hup. unfold binary_round_aux.
  pose proof (shr_fexp_below m e l Hm He Hup) as H1.
  destruct (shr_fexp f32.prec f32.emax m e l) as [mrs' e'].
  destruct H1 as [He' [Hm' Hup']].
  pose proof (round_nearest_even_le mrs' Hm') as [Hr0 Hr1].
  set (m1 := round_nearest_even (shr_m mrs') (loc_of_shr_record mrs')) in *.
  pose proof (shr_fexp_below m1 e' loc_Exact Hr0 He' ltac:(simpl; lia)) as H2.
  destruct (shr_fexp f32.prec f32.emax m1 e' loc_Exact) as [mrs'' e''].
  destruct H2 as [He'' [Hm'' Hup'']].
  unfold rec_upper in Hup''.
  destruct (shr_m mrs'') as [|p|p] eqn:Hp; simpl; [trivial| |lia].
  destruct (Z.leb_spec e'' 104) as [_|Hbig]; [|lia].
  simpl. split; [assumption|]. destruct (shr_r mrs'' || shr_s mrs''); lia.
Qed.

Lemma in_unit_range (x : spec_float) :
  in_unit x -> f32.leb f32.zero x = true /\ f32.leb x f32.one = true.
Proof.
  destruct x as [s|s| |[] m e]; simpl; try contradiction.
  - intros _. split; reflexivity.
  - intros [He Hm]. split; [reflexivity|].
    unfold f32.leb, SFleb, f32.one. cbn [SFcompare].
    destruct (Z.compare_spec e (-23)) as [->|Hlt|Hgt]; [|reflexivity|lia].
    rewrite compare_cont_Eq.
    destruct (Pos.compare_spec m 8388608) as [Heq|Hlt|Hgt]; try reflexivity.
    apply Pos2Z.pos_lt_pos in Hgt. exfalso.
    apply (Z.lt_irrefl (Z.pos m)). eapply Z.le_lt_trans; [exact Hm|exact Hgt].
Qed.

(** A binary32 value between 0 and 1 has the unit form. *)
Lemma in_unit_of_valid (x : spec_float) :
  f32.valid x = true -> f32.leb f32.zero x = true -> f32.leb x f32.one = true ->
  in_unit x.
Proof.
  intros Hvalid H0 H1.
  destruct x as [s|[]| |[] m e]; try exact I; try discriminate.
  unfold f32.valid, valid_binary, bounded, canonical_mantissa in Hvalid.
  unfold in_unit.
  apply andb_prop in Hvalid. destruct Hvalid as [Hcan _].
  apply Z.eqb_eq in Hcan. unfold fexp, emin, f32.prec, f32.emax in Hcan.
  assert (Hdig : Z.pos (digits2_pos m) <= 24) by lia.
  assert (Hm : Z.pos m < 2 ^ 24).
  { rewrite digits2_pos_size in Hdig.
    pose proof (Pos.size_gt m) as Hgt.
    apply Pos2Z.pos_lt_pos in Hgt. rewrite Pos2Z.inj_pow in Hgt.
    eapply Z.lt_le_trans; [exact Hgt|].
    apply Z.pow_le_mono_r; lia. }
  unfold f32.leb, SFleb, f32.one in H1. cbn [SFcompare] in H1.
  rewrite compare_cont_Eq in H1. revert H1.
  destruct (Z.compare_spec e (-23)) as [->|Hlt|Hgt]; [| |discriminate].
  - destruct (Pos.compare_spec m 8388608) as [Heq|Hlt|Hgt]; try discriminate;
      intros _; (split; [apply Z.le_refl|]).
    + rewrite Heq. apply Z.le_refl.
    + apply Pos2Z.pos_lt_pos in Hlt. apply Z.lt_le_incl. exact Hlt.
  - intros _. split; [lia|].
    assert (2 ^ 24 <= 2 ^ (- e)) by (apply Z.pow_le_mono_r; lia). lia.
Qed.

Lemma mul_in_unit (x y : spec_float) :
  in_unit x -> in_unit y -> in_unit (f32.mul x y).
Proof.
  destruct x as [sx| | |[] mx ex]; simpl; try contradiction;
    destruct y as [sy| | |[] my ey]; simpl; try contradiction; trivial.
  intros [Hex Hmx] [Hey Hmy].
  apply binary_round_aux_in_unit; [lia|lia|].
  simpl. replace (- (ex + ey)) with (- ex + - ey) by lia.
  rewrite Z.pow_add_r by lia. rewrite Pos2Z.inj_mul.
  apply Z.mul_le_mono_nonneg; lia.
Qed.

Lemma sqrt_in_unit (x : spec_float) : in_unit x -> in_unit (f32.sqrt x).
Proof.
  destruct x as [sx| | |[] m e]; simpl; try contradiction; trivial.
  intros [He Hm].
  unfold SFsqrt_core_binary.
  set (d := Zdigits2 (Z.pos m)).
  set (e' := Z.min (fexp f32.prec f32.emax (Z.div2 (d + e + 1))) (Z.div2 e)).
  assert (Hd : d <= - e + 1) by (apply Zdigits2_le; lia).
  assert (He2 : 2 * Z.div2 e <= e)
    by (rewrite Z.div2_div; pose proof (Z.mul_div_le e 2); lia).
  assert (He' : e' <= -23).
  { unfold e', fexp, emin, f32.prec, f32.emax.
    assert (Z.div2 (d + e + 1) <= 1)
      by (rewrite Z.div2_div; apply Z.div_le_upper_bound; lia).
    lia. }
  assert (Hs : 0 <= e - 2 * e') by (unfold e'; lia).
  set (m' := match e - 2 * e' with
             | 0 => Z.pos m
             | Z.pos _ => Z.shiftl (Z.pos m) (e - 2 * e')
             | Z.neg _ => 0
             end).
  assert (Hm' : m' = Z.pos m * 2 ^ (e - 2 * e')).
  { unfold m'. destruct (e - 2 * e') as [|p|p] eqn:Hse; [simpl; lia| |lia].
    now rewrite Z.shiftl_mul_pow2 by lia. }
  assert (Hbound : 0 <= m' <= 2 ^ (- e') * 2 ^ (- e')).
  { rewrite Hm'. split; [apply Z.mul_nonneg_nonneg; [lia|apply Z.pow_nonneg; lia]|].
    rewrite <- Z.pow_add_r by lia.
    replace (- e' + - e') with (- e + (e - 2 * e')) by lia.
    rewrite Z.pow_add_r by lia.
    apply Z.mul_le_mono_nonneg_r; [apply Z.pow_nonneg; lia|lia]. }
  pose proof (Z.sqrtrem_spec m' (proj1 Hbound)) as Hsqrt.
  destruct (Z.sqrtrem m') as [q r]. destruct Hsqrt as [Hq Hr].
  assert (Hpow : 0 < 2 ^ (- e')) by (apply Z.pow_pos_nonneg; lia).
  apply binary_round_aux_in_unit; [lia|assumption|].
  destruct (Z.eqb_spec r 0) as [->|Hr0]; simpl; nia.
Qed.

Lemma clamp_in_unit (x : spec_float) :
  f32.valid x = true -> is_nan x = false -> in_unit (clamp x).
Proof.
  intros Hvalid Hnan. unfold clamp.
  destruct (f32.ltb x f32.zero) eqn:H0; [exact I|].
  destruct (f32.ltb f32.one x) eqn:H1; [simpl; lia|].
  apply in_unit_of_valid; [assumption| |];
    apply SFltb_false_SFleb; auto.
Qed.

End UnitFacts.

(** C8: for valid inputs, that is binary32 tensors in which every face
    confidence lies in [0, 1] and no IoU estimate is NaN, the fused score of
    every decoded candidate lies in [0, 1]. *)
Theorem fused_score_in_unit_interval expf img_w img_h priors loc_v conf_v iou_v :
  enough_rows priors loc_v conf_v iou_v ->
  (forall i c, (i < length priors)%nat -> nth_error conf_v (i*2+1) = Some c ->
     f32.valid c = true /\ f32.leb f32.zero c = true /\ f32.leb c f32.one = true) ->
  (forall i u, (i < length priors)%nat -> nth_error iou_v i = Some u ->
     f32.valid u = true /\ is_nan u = false) ->
  exists faces,
    decode expf img_w img_h priors loc_v conf_v iou_v = Some faces /\
    length faces = length priors /\
    Forall (fun f => f32.leb f32.zero (score f) = true /\
                     f32.leb (score f) f32.one = true) faces.
Proof.
  intros Hrows Hconf Hiou.
  destruct (decode_total expf img_w img_h _ _ _ _ Hrows) as (faces & Hdec & Hlen & Hnth).
  exists faces. split; [exact Hdec|]. split; [exact Hlen|].
  apply Forall_forall. intros f Hf.
  apply In_nth_error in Hf. destruct Hf as [i Hi].
  assert (Hlt : (i < length priors)%nat)
    by (rewrite <- Hlen; apply nth_error_Some; congruence).
  destruct (Hnth i Hlt) as (f' & Hf' & Hface).
  assert (f' = f) by congruence. subst f'.
  unfold decode_face in Hface.
  destruct (nth_error priors i) as [prior|]; [|discriminate].
  destruct (nth_error conf_v (i*2+1)) as [c|] eqn:Hc; [|discriminate].
  destruct (nth_error iou_v i) as [u|] eqn:Hu; [|discriminate].
  repeat match type of Hface with
         | context [nth_error ?l ?k] => destruct (nth_error l k); [|discriminate]
         end.
  injection Hface as <-. cbn [score].
  destruct (Hconf i c Hlt Hc) as (Hcv & Hc0 & Hc1).
  destruct (Hiou i u Hlt Hu) as (Huv & Hun).
  apply UnitFacts.in_unit_range, UnitFacts.sqrt_in_unit, UnitFacts.mul_in_unit.
  - now apply UnitFacts.in_unit_of_valid.
  - now apply UnitFacts.clamp_in_unit.
Qed.

(** ** Inputs the code does not check *)

Lemma quot2_nonpos (a : Z) : a <= 1 -> a ÷ 2 <= 0.
Proof.
  intros Ha. pose proof (Z.quot_le_mono a 1 2 ltac:(lia) Ha) as H.
  change (1 ÷ 2) with 0 in H. exact H.
Qed.

Lemma feature_map_next_nonpos (fm : Size.t) :
  Size.width fm <= 0 \/ Size.height fm <= 0 ->
  Size.width (feature_map_next fm) <= 0 \/ Size.height (feature_map_next fm) <= 0.
Proof.
  unfold feature_map_next, int_div. simpl.
  intros [H|H]; [left|right]; apply quot2_nonpos; lia.
Qed.

Lemma cells_nonpos (fm : Size.t) :
  Size.width fm <= 0 \/ Size.height fm <= 0 -> cells fm = 0%nat.
Proof. unfold cells. intros [H|H]; lia. Qed.

Lemma wrap32_id (z : Z) : INT_MIN <= z <= INT_MAX -> wrap32 z = z.
Proof.
  unfold wrap32, INT_MIN, INT_MAX. intros Hz.
  rewrite Z.mod_small; lia.
Qed.

Lemma generatePriors_nonpos (img_w img_h : Z) :
  INT_MIN <= img_w <= INT_MAX -> INT_MIN <= img_h <= INT_MAX ->
  img_w <= 0 \/ img_h <= 0 -> generatePriors img_w img_h = [].
Proof.
  intros Hw Hh Hnonpos.
  assert (H2 : Size.width (feature_map_2nd img_w img_h) <= 0 \/
               Size.height (feature_map_2nd img_w img_h) <= 0).
  { unfold feature_map_2nd, int_div, int_add. simpl.
    unfold INT_MIN, INT_MAX in Hw, Hh.
    destruct Hnonpos as [H|H]; [left|right];
      rewrite wrap32_id by (unfold INT_MIN, INT_MAX; lia);
      apply quot2_nonpos;
      (eapply Z.le_trans; [apply quot2_nonpos|]); lia. }
  pose proof (feature_map_next_nonpos _ H2) as H3.
  pose proof (feature_map_next_nonpos _ H3) as H4.
  pose proof (feature_map_next_nonpos _ H4) as H5.
  pose proof (feature_map_next_nonpos _ H5) as H6.
  apply length_zero_iff_nil. rewrite generatePriors_length.
  unfold feature_map_6th, feature_map_5th, feature_map_4th, feature_map_3rd.
  rewrite !cells_nonpos by assumption. reflexivity.
Qed.

Section ExtraRows.

Variable expf : spec_float -> spec_float.
Variables img_w img_h : Z.
Variable priors : list Rect2f.t.
Variables loc_v conf_v iou_v : list spec_float.
Variables loc_more conf_more iou_more : list spec_float.

(** Rows beyond the prior count are never read. *)
Lemma decode_ignores_extra_rows :
  enough_rows priors loc_v conf_v iou_v ->
  decode expf img_w img_h priors
         (loc_v ++ loc_more) (conf_v ++ conf_more) (iou_v ++ iou_more)
  = decode expf img_w img_h priors loc_v conf_v iou_v.
Proof.
  intros (Hloc & Hconf & Hiou).
  rewrite !decode_traverse.
  assert (Hext : forall l : list nat,
             Forall (fun i => (i < length priors)%nat) l ->
             traverse (decode_face expf img_w img_h priors
                         (loc_v ++ loc_more) (conf_v ++ conf_more) (iou_v ++ iou_more)) l
             = traverse (decode_face expf img_w img_h priors loc_v conf_v iou_v) l).
  { induction 1 as [|i l Hi Hall IH]; simpl; [reflexivity|].
    rewrite IH.
    replace (decode_face expf img_w img_h priors
               (loc_v ++ loc_more) (conf_v ++ conf_more) (iou_v ++ iou_more) i)
      with (decode_face expf img_w img_h priors loc_v conf_v iou_v i);
      [reflexivity|].
    unfold decode_face.
    rewrite !nth_error_app1 by lia. reflexivity. }
  apply Hext. apply Forall_forall. intros i Hi. apply in_seq in Hi. lia.
Qed.

End ExtraRows.


Lemma fused_score_formula_witness :
  exists faces,
    decode Sample.exp_at_zero 8 8 (generatePriors 8 8)
           Sample.loc Sample.conf Sample.iou = Some faces /\
    length faces = 3%nat.
Proof.
  destruct (fused_score_formula Sample.exp_at_zero 8 8 (generatePriors 8 8)
              Sample.loc Sample.conf Sample.iou ltac:(sample_rows))
    as (faces & Hdec & Hlen & _).
  exists faces. split; [exact Hdec|exact Hlen].
Defined.

(** On the sample the first anchor is shifted by dx = -7: its centre is
    (0.5 + -7 * 0.1f * 10/8) * 8, which is -3 up to rounding, and its box of
    width and height 10 starts at x = -8. *)
Lemma box_and_landmark_decode_witness :
  exists faces f,
    decode Sample.exp_at_zero 8 8 (generatePriors 8 8)
           Sample.loc Sample.conf Sample.iou = Some faces /\
    length faces = 3%nat /\
    nth_error faces 0 = Some f /\
    tl_x f = f32.of_int (-8) /\
    w f = f32.of_int 10 /\
    h f = f32.of_int 10.
Proof.
  destruct (box_and_landmark_decode Sample.exp_at_zero 8 8 (generatePriors 8 8)
              Sample.loc Sample.conf Sample.iou ltac:(sample_rows))
    as (_ & faces & Hdec & Hlen & Hrow).
  destruct (Hrow 0%nat ltac:(vm_compute; lia))
    as (f & prior & Hf & Hprior & Hx & _ & Hw & Hh & _).
  vm_compute in Hprior. injection Hprior as <-.
  exists faces, f. split; [exact Hdec|]. split; [exact Hlen|].
  split; [exact Hf|].
  rewrite Hx, Hw, Hh.
  split; [vm_compute; reflexivity|]. split; vm_compute; reflexivity.
Defined.

Lemma detections_meet_score_threshold_witness :
  exists rows,
    Sample.run = Some rows /\
    Forall (fun f => f32.leb Sample.score_threshold (score f) = true) rows.
Proof.
  apply (detections_meet_score_threshold Sample.exp_at_zero Sample.to_int_default
           8 8 Sample.loc Sample.conf Sample.iou).
  sample_rows.
Defined.


(** C6, as stated, fails: on the sample input the pipeline returns two
    detections, with boxes (-8, -1, 10, 10) and (-3.5, -4, 16, 16) up to
    rounding, whose IoU, 55/301, is above the threshold 11/64; as integer
    rectangles the second starts at x = -3 and the IoU is 50/306, below it. *)
Lemma returned_boxes_overlap_above_threshold :
  exists f g q,
    Sample.run = Some [f; g] /\
    exact_iou f g = Some q /\
    (q == 55 # 301)%Q /\
    NMS.iou (face_box Sample.to_int_default f) (face_box Sample.to_int_default g)
    = (50 # 306)%Q /\
    Q_gt_float q Sample.nms_threshold = true /\
    face_box Sample.to_int_default f = Rect2i.mk (-8) (-1) 10 10 /\
    face_box Sample.to_int_default g = Rect2i.mk (-3) (-4) 16 16 /\
    Q_gt_float (NMS.iou (face_box Sample.to_int_default f)
                        (face_box Sample.to_int_default g))
               Sample.nms_threshold = false.
Proof.
  exists (nth 0 Sample.expected Sample.no_face),
         (nth 1 Sample.expected Sample.no_face).
  eexists.
  split; [vm_compute; reflexivity|].
  split; [vm_compute; reflexivity|].
  split; [vm_compute; reflexivity|].
  split; [vm_compute; reflexivity|].
  split; [vm_compute; reflexivity|].
  split; [vm_compute; reflexivity|].
  split; vm_compute; reflexivity.
Qed.

Lemma detections_truncated_iou_bounded_witness :
  exists rows,
    postProcess Sample.exp_at_zero Sample.to_int_default 8 8 (generatePriors 8 8)
                Sample.loc Sample.conf Sample.iou
                Sample.score_threshold Sample.nms_threshold Sample.top_k = Some rows /\
    forall i j f g, i <> j ->
      nth_error rows i = Some f -> nth_error rows j = Some g ->
      Q_gt_float (NMS.iou (face_box Sample.to_int_default f)
                          (face_box Sample.to_int_default g))
                 Sample.nms_threshold = false.
Proof.
  apply (detections_truncated_iou_bounded Sample.exp_at_zero Sample.to_int_default
           8 8 (generatePriors 8 8) Sample.loc Sample.conf Sample.iou).
  sample_rows.
Defined.

Lemma detections_ranked_witness :
  exists faces rows,
    decode Sample.exp_at_zero 8 8 (generatePriors 8 8)
           Sample.loc Sample.conf Sample.iou = Some faces /\
    postProcess Sample.exp_at_zero Sample.to_int_default 8 8 (generatePriors 8 8)
                Sample.loc Sample.conf Sample.iou
                Sample.score_threshold Sample.nms_threshold Sample.top_k = Some rows.
Proof.
  destruct (detections_ranked Sample.exp_at_zero Sample.to_int_default
              8 8 (generatePriors 8 8) Sample.loc Sample.conf Sample.iou
              Sample.score_threshold Sample.nms_threshold Sample.top_k
              ltac:(sample_rows))
    as (faces & rows & Hdec & Hpost & _).
  exists faces, rows. split; [exact Hdec|exact Hpost].
Defined.

Lemma fused_score_in_unit_interval_witness :
  exists faces,
    decode Sample.exp_at_zero 8 8 (generatePriors 8 8)
           Sample.loc Sample.conf Sample.iou = Some faces /\
    length faces = length (generatePriors 8 8) /\
    Forall (fun f => f32.leb f32.zero (score f) = true /\
                     f32.leb (score f) f32.one = true) faces.
Proof.
  apply (fused_score_in_unit_interval Sample.exp_at_zero 8 8 (generatePriors 8 8)
           Sample.loc Sample.conf Sample.iou).
  - sample_rows.
  - intros i c Hi. vm_compute in Hi.
    destruct i as [|[|[|i]]]; [| | |lia]; simpl; intros [= <-];
      vm_compute; auto.
  - intros i u Hi. vm_compute in Hi.
    destruct i as [|[|[|i]]]; [| | |lia]; simpl; intros [= <-];
      vm_compute; auto.
Defined.

(** C9, as stated, fails: with a 0 x 0 resolution the pipeline returns the
    empty list as an ordinary result; and when every tensor has four rows
    for the three priors of an 8 x 8 image it returns two detections. *)
Lemma invalid_input_not_rejected :
  detect Sample.exp_at_zero Sample.to_int_default 0 0 [] [] []
         Sample.score_threshold Sample.nms_threshold Sample.top_k = Some [] /\
  length (generatePriors 8 8) = 3%nat /\
  length (Sample.loc ++ Sample.loc_more) = (4 * 14)%nat /\
  length (Sample.conf ++ Sample.conf_more) = (4 * 2)%nat /\
  length (Sample.iou ++ Sample.iou_more) = 4%nat /\
  detect Sample.exp_at_zero Sample.to_int_default 8 8
         (Sample.loc ++ Sample.loc_more) (Sample.conf ++ Sample.conf_more)
         (Sample.iou ++ Sample.iou_more)
         Sample.score_threshold Sample.nms_threshold Sample.top_k
  = Some Sample.expected /\
  length Sample.expected = 2%nat.
Proof.
  split; [vm_compute; reflexivity|].
  split; [vm_compute; reflexivity|].
  split; [vm_compute; reflexivity|].
  split; [vm_compute; reflexivity|].
  split; [vm_compute; reflexivity|].
  split; vm_compute; reflexivity.
Qed.

(** C9, amended: the code checks neither the resolution nor the row counts.
    With a non-positive width or height the prior list is empty and the
    pipeline returns the empty detection list as an ordinary result; with
    tensors of at least as many rows as priors it returns what their first
    rows alone give, the rows beyond the prior count being ignored. *)
Theorem unchecked_input_handling expf ub img_w img_h loc_v conf_v iou_v
    loc_more conf_more iou_more scoreThreshold nmsThreshold topK :
  INT_MIN <= img_w <= INT_MAX -> INT_MIN <= img_h <= INT_MAX ->
  (img_w <= 0 \/ img_h <= 0 ->
   generatePriors img_w img_h = [] /\
   detect expf ub img_w img_h loc_v conf_v iou_v scoreThreshold nmsThreshold topK
   = Some []) /\
  (enough_rows (generatePriors img_w img_h) loc_v conf_v iou_v ->
   exists rows,
     detect expf ub img_w img_h loc_v conf_v iou_v scoreThreshold nmsThreshold topK
     = Some rows /\
     detect expf ub img_w img_h (loc_v ++ loc_more) (conf_v ++ conf_more)
            (iou_v ++ iou_more) scoreThreshold nmsThreshold topK
     = Some rows).
Proof.
  intros Hw Hh. split.
  - intros Hnonpos.
    pose proof (generatePriors_nonpos img_w img_h Hw Hh Hnonpos) as Hnil.
    split; [exact Hnil|].
    unfold detect. rewrite Hnil. reflexivity.
  - intros Hrows.
    destruct (decode_total expf img_w img_h _ _ _ _ Hrows) as (faces & Hdec & _).
    destruct (postProcess_rows expf ub img_w img_h _ _ _ _
                scoreThreshold nmsThreshold topK faces Hdec)
      as (rows & Hpost & _).
    exists rows. split; [exact Hpost|].
    unfold detect, postProcess in *.
    now rewrite decode_ignores_extra_rows.
Qed.

Lemma unchecked_input_handling_witness :
  (generatePriors 0 (-3) = [] /\
   detect Sample.exp_at_zero Sample.to_int_default 0 (-3) [] [] []
          Sample.score_threshold Sample.nms_threshold Sample.top_k = Some []) /\
  (exists rows,
     Sample.run = Some rows /\
     detect Sample.exp_at_zero Sample.to_int_default 8 8
            (Sample.loc ++ Sample.loc_more) (Sample.conf ++ Sample.conf_more)
            (Sample.iou ++ Sample.iou_more)
            Sample.score_threshold Sample.nms_threshold Sample.top_k = Some rows).
Proof.
  split.
  - apply (unchecked_input_handling Sample.exp_at_zero Sample.to_int_default
             0 (-3) [] [] [] [] [] []);
      unfold INT_MIN, INT_MAX; lia.
  - apply (unchecked_input_handling Sample.exp_at_zero Sample.to_int_default
             8 8 Sample.loc Sample.conf Sample.iou).
    + unfold INT_MIN, INT_MAX; lia.
    + unfold INT_MIN, INT_MAX; lia.
    + sample_rows.
Defined.



(** Truncation drops the fraction, toward zero. *)
Example truncate_examples :
  truncate (f32.div (f32.of_int 15) (f32.of_int 4)) = Some 3 /\
  truncate (f32.div (f32.of_int (-15)) (f32.of_int 4)) = Some (-3) /\
  truncate (f32.div (f32.of_int 1) (f32.of_int 4)) = Some 0 /\
  truncate (f32.of_int 1000) = Some 1000.
Proof.
  split; [vm_compute; reflexivity|].
  split; [vm_compute; reflexivity|].
  split; vm_compute; reflexivity.
Qed.

(** postProcess alone, on a prior list of length one, returns the single
    candidate whatever its score: here the score is 0 and the threshold
    1/2. The pipeline never reaches this case, [generatePriors] yielding no
    prior or at least three. *)
Example single_prior_returned_unfiltered :
  exists f,
    postProcess Sample.exp_at_zero Sample.to_int_default 8 8
                [Rect2f.mk f32.one f32.one f32.one f32.one]
                (Sample.zeros 14) [f32.zero; f32.zero] [f32.one]
                Sample.score_threshold Sample.nms_threshold Sample.top_k
    = Some [f] /\
    score f = f32.zero /\
    f32.leb Sample.score_threshold (score f) = false.
Proof.
  eexists. split; [vm_compute; reflexivity|].
  split; vm_compute; reflexivity.
Qed.

(** * Further properties of the code *)

(** ** Prior generation *)

(** [generatePriors] does not clear the member it appends to. *)
Theorem generatePriors_appends (img_w img_h : Z) (priors : list Rect2f.t) :
  generatePriors_from img_w img_h priors = priors ++ generatePriors img_w img_h.
Proof.
  rewrite generatePriors_levels. unfold generatePriors_from.
  apply for_index_append. intros j acc Hj. now apply generate_level_spec.
Qed.

Lemma quot_pow2_nonneg (a : Z) : 0 <= a -> a ÷ 2 = a / 2.
Proof. intros Ha. apply Z.quot_div_nonneg; lia. Qed.

(** In the range where [img_w + 1] does not overflow, the map of the level
    with stride [8 * 2^k] has [(dim + 1) / (8 * 2^k)] cells along a
    dimension [dim >= 0]. *)
Lemma feature_map_dims (img_w img_h : Z) :
  0 <= img_w < INT_MAX -> 0 <= img_h < INT_MAX ->
  feature_map_sizes img_w img_h
  = [ Size.mk ((img_w + 1) / 8) ((img_h + 1) / 8);
      Size.mk ((img_w + 1) / 16) ((img_h + 1) / 16);
      Size.mk ((img_w + 1) / 32) ((img_h + 1) / 32);
      Size.mk ((img_w + 1) / 64) ((img_h + 1) / 64) ].
Proof.
  intros Hw Hh. unfold INT_MAX in Hw, Hh.
  assert (Hdim : forall d, 0 <= d < 2 ^ 31 - 1 ->
            let d2 := int_div (int_div (int_add d 1) 2) 2 in
            int_div d2 2 = (d + 1) / 8 /\
            int_div (int_div d2 2) 2 = (d + 1) / 16 /\
            int_div (int_div (int_div d2 2) 2) 2 = (d + 1) / 32 /\
            int_div (int_div (int_div (int_div d2 2) 2) 2) 2 = (d + 1) / 64).
  { intros d Hd. cbv zeta. unfold int_div, int_add.
    rewrite wrap32_id by (unfold INT_MIN, INT_MAX; lia).
    assert (H1 : (d + 1) ÷ 2 = (d + 1) / 2) by (apply quot_pow2_nonneg; lia).
    assert (H2 : (d + 1) / 2 / 2 = (d + 1) / 4) by (rewrite Z.div_div by lia; reflexivity).
    assert (H3 : (d + 1) / 4 / 2 = (d + 1) / 8) by (rewrite Z.div_div by lia; reflexivity).
    assert (H4 : (d + 1) / 8 / 2 = (d + 1) / 16) by (rewrite Z.div_div by lia; reflexivity).
    assert (H5 : (d + 1) / 16 / 2 = (d + 1) / 32) by (rewrite Z.div_div by lia; reflexivity).
    assert (H6 : (d + 1) / 32 / 2 = (d + 1) / 64) by (rewrite Z.div_div by lia; reflexivity).
    assert (P2 : 0 <= (d + 1) / 2) by (apply Z.div_pos; lia).
    assert (P4 : 0 <= (d + 1) / 4) by (apply Z.div_pos; lia).
    assert (P8 : 0 <= (d + 1) / 8) by (apply Z.div_pos; lia).
    assert (P16 : 0 <= (d + 1) / 16) by (apply Z.div_pos; lia).
    assert (P32 : 0 <= (d + 1) / 32) by (apply Z.div_pos; lia).
    rewrite H1, (quot_pow2_nonneg _ P2), H2, (quot_pow2_nonneg _ P4), H3.
    rewrite (quot_pow2_nonneg _ P8), H4, (quot_pow2_nonneg _ P16), H5.
    rewrite (quot_pow2_nonneg _ P32), H6. auto. }
  destruct (Hdim img_w Hw) as (W3 & W4 & W5 & W6).
  destruct (Hdim img_h Hh) as (H3 & H4 & H5 & H6).
  unfold feature_map_sizes, feature_map_6th, feature_map_5th, feature_map_4th,
    feature_map_3rd, feature_map_next, feature_map_2nd.
  cbn [Size.width Size.height]. cbv zeta in *.
  now rewrite W6, W5, W4, W3, H6, H5, H4, H3.
Qed.

(** The number of priors, in closed form, for every non-negative resolution
    whose increment fits [int]. *)
Theorem prior_count (img_w img_h : Z) :
  0 <= img_w < INT_MAX -> 0 <= img_h < INT_MAX ->
  Z.of_nat (length (generatePriors img_w img_h))
  = 3 * ((img_w + 1) / 8 * ((img_h + 1) / 8))
    + 2 * ((img_w + 1) / 16 * ((img_h + 1) / 16))
    + 2 * ((img_w + 1) / 32 * ((img_h + 1) / 32))
    + 3 * ((img_w + 1) / 64 * ((img_h + 1) / 64)).
Proof.
  intros Hw Hh.
  pose proof (feature_map_dims img_w img_h Hw Hh) as Hsizes.
  assert (E3 := f_equal (fun l => nth 0 l (Size.mk 0 0)) Hsizes).
  assert (E4 := f_equal (fun l => nth 1 l (Size.mk 0 0)) Hsizes).
  assert (E5 := f_equal (fun l => nth 2 l (Size.mk 0 0)) Hsizes).
  assert (E6 := f_equal (fun l => nth 3 l (Size.mk 0 0)) Hsizes).
  unfold feature_map_sizes in E3, E4, E5, E6. cbn [nth] in E3, E4, E5, E6.
  rewrite generatePriors_length, E3, E4, E5, E6. unfold cells.
  cbn [Size.width Size.height].
  assert (Hnn : forall d k, 0 <= d -> 0 < k -> 0 <= (d + 1) / k)
    by (intros; apply Z.div_pos; lia).
  pose proof (Hnn img_w 8 ltac:(lia) ltac:(lia)).
  pose proof (Hnn img_w 16 ltac:(lia) ltac:(lia)).
  pose proof (Hnn img_w 32 ltac:(lia) ltac:(lia)).
  pose proof (Hnn img_w 64 ltac:(lia) ltac:(lia)).
  pose proof (Hnn img_h 8 ltac:(lia) ltac:(lia)).
  pose proof (Hnn img_h 16 ltac:(lia) ltac:(lia)).
  pose proof (Hnn img_h 32 ltac:(lia) ltac:(lia)).
  pose proof (Hnn img_h 64 ltac:(lia) ltac:(lia)).
  rewrite !Nat2Z.inj_add, !Nat2Z.inj_mul, !Z2Nat.id by assumption.
  change (Z.of_nat 3) with 3. change (Z.of_nat 2) with 2. ring.
Qed.

Lemma prior_count_witness :
  Z.of_nat (length (generatePriors 320 240)) = 4385.
Proof.
  rewrite (prior_count 320 240); [reflexivity| |]; unfold INT_MAX; lia.
Defined.

Lemma quot8 (a : Z) : a ÷ 2 ÷ 2 ÷ 2 = a ÷ 8.
Proof. rewrite !Z.quot_quot by lia. reflexivity. Qed.

Lemma quot8_nonpos_iff (a : Z) : a ÷ 8 <= 0 <-> a < 8.
Proof.
  split; intros H.
  - destruct (Z.lt_ge_cases a 8) as [Hlt|Hge]; [assumption|].
    pose proof (Z.quot_le_mono 8 a 8 ltac:(lia) Hge) as Hq.
    change (8 ÷ 8) with 1 in Hq. lia.
  - pose proof (Z.quot_le_mono a 7 8 ltac:(lia) ltac:(lia)) as Hq.
    change (7 ÷ 8) with 0 in Hq. exact Hq.
Qed.

Lemma cells_zero_iff (fm : Size.t) :
  cells fm = 0%nat <-> Size.width fm <= 0 \/ Size.height fm <= 0.
Proof. unfold cells. split; [intros H|intros [H|H]]; lia. Qed.

(** The prior list is empty exactly when the image is narrower or shorter
    than 7 pixels, and then the pipeline returns the empty list whatever the
    tensors and thresholds. *)
Theorem no_priors_below_7_pixels (img_w img_h : Z) :
  INT_MIN <= img_w < INT_MAX -> INT_MIN <= img_h < INT_MAX ->
  (generatePriors img_w img_h = [] <-> img_w < 7 \/ img_h < 7) /\
  (img_w < 7 \/ img_h < 7 ->
   forall expf ub loc_v conf_v iou_v scoreThreshold nmsThreshold topK,
     detect expf ub img_w img_h loc_v conf_v iou_v scoreThreshold nmsThreshold topK
     = Some []).
Proof.
  intros Hw Hh.
  assert (H3 : cells (feature_map_3rd img_w img_h) = 0%nat <-> img_w < 7 \/ img_h < 7).
  { rewrite cells_zero_iff.
    unfold feature_map_3rd, feature_map_next, feature_map_2nd, int_div, int_add.
    cbn [Size.width Size.height].
    rewrite !wrap32_id by (unfold INT_MIN, INT_MAX in *; lia).
    rewrite !quot8, !quot8_nonpos_iff. lia. }
  assert (Hnil : generatePriors img_w img_h = [] <-> img_w < 7 \/ img_h < 7).
  { rewrite <- H3. split.
    - intros Hnil. apply (f_equal (@length _)) in Hnil.
      rewrite generatePriors_length in Hnil. simpl length in Hnil. lia.
    - intros Hc. destruct (generatePriors_length_cases img_w img_h) as [|Hmany];
        [assumption|].
      rewrite generatePriors_length in Hmany.
      pose proof (cells_next _ Hc) as H4. fold (feature_map_4th img_w img_h) in H4.
      pose proof (cells_next _ H4) as H5. fold (feature_map_5th img_w img_h) in H5.
      pose proof (cells_next _ H5) as H6. fold (feature_map_6th img_w img_h) in H6.
      lia. }
  split; [exact Hnil|].
  intros Hsmall expf ub loc_v conf_v iou_v scoreThreshold nmsThreshold topK.
  unfold detect. rewrite (proj2 Hnil Hsmall). reflexivity.
Qed.

Lemma no_priors_below_7_pixels_witness :
  generatePriors 6 480 = [] /\ generatePriors 7 7 <> [].
Proof.
  destruct (no_priors_below_7_pixels 6 480) as [[_ H6] _];
    [unfold INT_MIN, INT_MAX; lia|unfold INT_MIN, INT_MAX; lia|].
  destruct (no_priors_below_7_pixels 7 7) as [[H7 _] _];
    [unfold INT_MIN, INT_MAX; lia|unfold INT_MIN, INT_MAX; lia|].
  split; [apply H6; lia|]. intros Hnil. apply H7 in Hnil. lia.
Defined.

(** *** The prior of an anchor index *)

Lemma nth_error_flat_map_const {A B : Type} (f : A -> list B) (l : list A) (k : nat) :
  (forall a, length (f a) = k) ->
  forall i j a, nth_error l i = Some a -> (j < k)%nat ->
    nth_error (flat_map f l) (i * k + j) = nth_error (f a) j.
Proof.
  intros Hf. induction l as [|a0 l IH]; intros i j a Hi Hj.
  - destruct i; discriminate.
  - destruct i as [|i]; simpl in Hi |- *.
    + injection Hi as ->. rewrite nth_error_app1 by (rewrite Hf; lia). reflexivity.
    + rewrite nth_error_app2 by (rewrite Hf; lia).
      rewrite Hf. replace (k + i * k + j - k)%nat with (i * k + j)%nat by lia.
      now apply IH.
Qed.

Lemma nth_error_upto (n i : Z) :
  0 <= i < n -> nth_error (upto n) (Z.to_nat i) = Some i.
Proof.
  intros Hi. unfold upto.
  rewrite nth_error_map, nth_error_nth' with (d := 0%nat) by (rewrite length_seq; lia).
  rewrite seq_nth by lia. simpl. f_equal. lia.
Qed.

(** Inside one level the prior of row [_h], column [_w] and size index [j]
    sits at [(_h * width + _w) * sizes + j]. *)
Lemma spec_level_priors_nth (img_w img_h : Z) (fm : Size.t) (lv : Z * list Z)
    (_h _w : Z) (j : nat) (s : Z) :
  0 <= _h < Size.height fm -> 0 <= _w < Size.width fm ->
  nth_error (snd lv) j = Some s ->
  nth_error (spec_level_priors img_w img_h fm lv)
            ((Z.to_nat _h * Z.to_nat (Size.width fm) + Z.to_nat _w) * length (snd lv) + j)
  = Some (spec_prior img_w img_h (fst lv) _h _w s).
Proof.
  intros Hh Hw Hs.
  assert (Hj : (j < length (snd lv))%nat) by (apply nth_error_Some; congruence).
  unfold spec_level_priors.
  set (row := fun _h => flat_map _ (upto (Size.width fm))).
  assert (Hrow : forall r, length (row r) = (Z.to_nat (Size.width fm) * length (snd lv))%nat).
  { intros r. unfold row.
    rewrite (flat_map_const_length _ _ (length (snd lv))) by (intros; apply length_map).
    now rewrite upto_length. }
  replace ((Z.to_nat _h * Z.to_nat (Size.width fm) + Z.to_nat _w) * length (snd lv) + j)%nat
    with (Z.to_nat _h * (Z.to_nat (Size.width fm) * length (snd lv))
          + (Z.to_nat _w * length (snd lv) + j))%nat by lia.
  rewrite (nth_error_flat_map_const row _ _ Hrow _ _ _h (nth_error_upto _ _ Hh)) by nia.
  unfold row.
  rewrite (nth_error_flat_map_const _ _ (length (snd lv))
             (fun _ => length_map _ _) _ _ _w (nth_error_upto _ _ Hw) Hj).
  now rewrite nth_error_map, Hs.
Qed.

Lemma nth_error_flat_map_seq {B : Type} (G : nat -> list B) (n i local : nat) :
  (i < n)%nat -> (local < length (G i))%nat ->
  nth_error (flat_map G (seq 0 n)) (length (flat_map G (seq 0 i)) + local)
  = nth_error (G i) local.
Proof.
  intros Hi Hlocal.
  replace n with (i + S (n - i - 1))%nat by lia.
  rewrite seq_app, flat_map_app. cbn [seq flat_map Nat.add].
  rewrite nth_error_app2 by lia.
  replace (length (flat_map G (seq 0 i)) + local - length (flat_map G (seq 0 i)))%nat
    with local by lia.
  now rewrite nth_error_app1.
Qed.

Lemma min_sizes_nth (i : nat) :
  nth i min_sizes [] = map f32.of_int (snd (nth i spec_levels (0, []))).
Proof.
  rewrite min_sizes_spec.
  change (@nil spec_float) with ((fun lv : Z * list Z => map f32.of_int (snd lv)) (0, [])).
  apply map_nth.
Qed.

Lemma steps_nth (i : nat) : nth i steps 0 = fst (nth i spec_levels (0, [])).
Proof.
  rewrite steps_spec. change 0 with (fst (0, @nil Z)) at 1. apply map_nth.
Qed.

Lemma level_offset_length (img_w img_h : Z) (i : nat) :
  level_offset img_w img_h i
  = length (flat_map (fun j => spec_level_priors img_w img_h
                                 (nth j (feature_map_sizes img_w img_h) (Size.mk 0 0))
                                 (nth j spec_levels (0, [])))
                     (seq 0 i)).
Proof.
  induction i as [|i IH]; [reflexivity|].
  rewrite seq_S, flat_map_app, length_app. cbn [level_offset flat_map Nat.add].
  rewrite IH, app_nil_r, spec_level_priors_length. unfold level_count, cells.
  rewrite min_sizes_nth, length_map. lia.
Qed.

(** The anchor index of a prior: level [i] starts at [level_offset], and
    within it the prior of row [_h], column [_w] and size index [j] comes at
    [(_h * width + _w) * sizes + j]. This is the row of the three tensors
    that the decoder pairs with it. *)
Theorem prior_at_anchor_index (img_w img_h : Z) (i : nat) (_h _w : Z) (j : nat) :
  let fm := nth i (feature_map_sizes img_w img_h) (Size.mk 0 0) in
  let min_size := nth i min_sizes [] in
  (i < 4)%nat ->
  0 <= _h < Size.height fm -> 0 <= _w < Size.width fm ->
  (j < length min_size)%nat ->
  nth_error (generatePriors img_w img_h)
            (level_offset img_w img_h i
             + ((Z.to_nat _h * Z.to_nat (Size.width fm) + Z.to_nat _w) * length min_size + j))
  = Some (make_prior img_w img_h (nth i steps 0) _h _w (nth j min_size f32.zero)).
Proof.
  intros fm min_size Hi Hh Hw Hj. subst fm min_size.
  rewrite min_sizes_nth, length_map in Hj. rewrite min_sizes_nth, length_map.
  set (lv := nth i spec_levels (0, [])) in *.
  set (fm := nth i (feature_map_sizes img_w img_h) (Size.mk 0 0)) in *.
  rewrite generatePriors_levels, level_offset_length.
  rewrite nth_error_flat_map_seq; [|exact Hi|].
  2:{ fold lv. fold fm. rewrite spec_level_priors_length.
      assert (Ha : (Z.to_nat _h < Z.to_nat (Size.height fm))%nat) by lia.
      assert (Hb : (Z.to_nat _w < Z.to_nat (Size.width fm))%nat) by lia.
      revert Ha Hb Hj.
      generalize (Z.to_nat _h) (Z.to_nat (Size.height fm)) (Z.to_nat _w)
                 (Z.to_nat (Size.width fm)) (length (snd lv)).
      intros a A b B k Ha Hb Hj.
      assert (H1 : (a * B + b + 1 <= A * B)%nat) by nia.
      assert (H2 : ((a * B + b + 1) * k <= A * B * k)%nat)
        by (apply Nat.mul_le_mono_r; exact H1).
      lia. }
  fold lv. fold fm.
  rewrite (spec_level_priors_nth img_w img_h fm lv _h _w j (nth j (snd lv) 0) Hh Hw)
    by (apply nth_error_nth'; exact Hj).
  f_equal. unfold spec_prior, make_prior. rewrite steps_nth. fold lv.
  change f32.zero with (f32.of_int 0). rewrite map_nth. reflexivity.
Qed.

Lemma prior_at_anchor_index_witness :
  nth_error (generatePriors 320 240) (3600 + ((2 * 20 + 5) * 2 + 1))
  = Some (make_prior 320 240 16 2 5 (f32.of_int 48)).
Proof.
  apply (prior_at_anchor_index 320 240 1 2 5 1).
  - lia.
  - change (0 <= 2 < 15). lia.
  - change (0 <= 5 < 20). lia.
  - change (1 < 2)%nat. lia.
Defined.

(** ** The decoding loop *)

Lemma traverse_ext {A B : Type} (g g' : A -> option B) (l : list A) :
  (forall a, In a l -> g a = g' a) -> traverse g l = traverse g' l.
Proof.
  induction l as [|a l IH]; intros Hext; simpl; [reflexivity|].
  rewrite (Hext a) by now left.
  rewrite IH by (intros; apply Hext; now right). reflexivity.
Qed.

Lemma traverse_defined {A B : Type} (g : A -> option B) (l : list A) (bs : list B) :
  traverse g l = Some bs -> forall a, In a l -> exists b, g a = Some b.
Proof.
  revert bs. induction l as [|a0 l IH]; intros bs Hbs a Ha; [contradiction|].
  simpl in Hbs. destruct (g a0) as [b0|] eqn:Hb0; [|discriminate].
  destruct (traverse g l) as [bs'|]; [|discriminate].
  destruct Ha as [<-|Ha]; eauto.
Qed.

(** A successful run of the loop has one candidate per prior, the i-th
    being the body's result at [i]. *)
Lemma decode_nth expf img_w img_h priors loc_v conf_v iou_v faces :
  decode expf img_w img_h priors loc_v conf_v iou_v = Some faces ->
  length faces = length priors /\
  forall i, (i < length priors)%nat ->
    decode_face expf img_w img_h priors loc_v conf_v iou_v i = nth_error faces i.
Proof.
  rewrite decode_traverse. intros Hfaces.
  destruct (traverse_nth _ _ _ Hfaces) as [Hlen Hnth].
  rewrite length_seq in Hlen. split; [exact Hlen|].
  intros i Hi. destruct (Hnth i i) as (f & Hf & Hface).
  - rewrite nth_error_nth' with (d := 0%nat) by (rewrite length_seq; lia).
    now rewrite seq_nth.
  - congruence.
Qed.

(** What the body reads at anchor [i]. *)
Lemma decode_face_reads expf img_w img_h priors loc_v conf_v iou_v i f :
  decode_face expf img_w img_h priors loc_v conf_v iou_v i = Some f ->
  (i * 14 + 13 < length loc_v)%nat /\
  (i * 2 + 1 < length conf_v)%nat /\
  (i < length iou_v)%nat.
Proof.
  unfold decode_face. intros Hface.
  repeat match type of Hface with
         | context [nth_error ?l ?k] =>
             let E := fresh "E" in
             destruct (nth_error l k) eqn:E; [|discriminate]
         end.
  repeat split; apply nth_error_Some; congruence.
Qed.

(** The loop stays inside the three tensors exactly when each of them has
    at least one row per prior; otherwise some read falls past the end of a
    tensor. *)
Theorem decode_in_bounds_iff expf img_w img_h priors loc_v conf_v iou_v :
  (exists faces, decode expf img_w img_h priors loc_v conf_v iou_v = Some faces)
  <-> enough_rows priors loc_v conf_v iou_v.
Proof.
  split.
  - intros [faces Hfaces].
    destruct (Nat.eq_dec (length priors) 0) as [H0|Hpos].
    { unfold enough_rows. rewrite H0. simpl. lia. }
    assert (Hlast : (length priors - 1 < length priors)%nat) by lia.
    rewrite decode_traverse in Hfaces.
    destruct (traverse_defined _ _ _ Hfaces (length priors - 1)%nat) as [f Hf].
    { apply in_seq. lia. }
    apply decode_face_reads in Hf. unfold enough_rows. lia.
  - intros Hrows.
    destruct (decode_total expf img_w img_h _ _ _ _ Hrows) as (faces & Hdec & _).
    eauto.
Qed.

(** The candidate of anchor [i] depends on prior [i] and on row [i] of each
    tensor only: runs that agree there decode the same i-th candidate,
    whatever the other rows hold. *)
Theorem decode_row_local expf img_w img_h priors priors'
    loc_v conf_v iou_v loc_v' conf_v' iou_v' faces faces' (i : nat) :
  decode expf img_w img_h priors loc_v conf_v iou_v = Some faces ->
  decode expf img_w img_h priors' loc_v' conf_v' iou_v' = Some faces' ->
  nth_error priors i = nth_error priors' i ->
  same_anchor_row i loc_v conf_v iou_v loc_v' conf_v' iou_v' ->
  nth_error faces i = nth_error faces' i.
Proof.
  intros Hdec Hdec' Hprior (Hloc & Hconf & Hiou).
  destruct (decode_nth _ _ _ _ _ _ _ _ Hdec) as [Hlen Hnth].
  destruct (decode_nth _ _ _ _ _ _ _ _ Hdec') as [Hlen' Hnth'].
  destruct (nth_error priors i) as [prior|] eqn:Hp.
  - assert (Hi : (i < length priors)%nat) by (apply nth_error_Some; congruence).
    assert (Hi' : (i < length priors')%nat) by (apply nth_error_Some; congruence).
    rewrite <- (Hnth i Hi), <- (Hnth' i Hi').
    unfold decode_face. rewrite Hp, <- Hprior, Hconf, Hiou.
    rewrite !Hloc by lia. reflexivity.
  - symmetry in Hprior. apply nth_error_None in Hp, Hprior.
    rewrite (proj2 (nth_error_None faces i)) by lia.
    rewrite (proj2 (nth_error_None faces' i)) by lia. reflexivity.
Qed.

Lemma decode_row_local_witness :
  exists faces faces',
    decode Sample.exp_at_zero 8 8 (generatePriors 8 8)
           Sample.loc Sample.conf Sample.iou = Some faces /\
    decode Sample.exp_at_zero 8 8 (generatePriors 8 8)
           (Sample.zeros 14 ++ skipn 14 Sample.loc) Sample.conf Sample.iou
      = Some faces' /\
    nth_error faces 0 <> nth_error faces' 0 /\
    nth_error faces 1 = nth_error faces' 1.
Proof.
  destruct (decode Sample.exp_at_zero 8 8 (generatePriors 8 8)
                   Sample.loc Sample.conf Sample.iou) as [faces|] eqn:Hdec;
    [|vm_compute in Hdec; discriminate Hdec].
  destruct (decode Sample.exp_at_zero 8 8 (generatePriors 8 8)
                   (Sample.zeros 14 ++ skipn 14 Sample.loc) Sample.conf Sample.iou)
    as [faces'|] eqn:Hdec'; [|vm_compute in Hdec'; discriminate Hdec'].
  exists faces, faces'. split; [reflexivity|]. split; [reflexivity|]. split.
  - vm_compute in Hdec, Hdec'.
    injection Hdec as <-. injection Hdec' as <-. discriminate.
  - apply (decode_row_local _ _ _ _ _ _ _ _ _ _ _ _ _ 1%nat Hdec Hdec');
      [reflexivity|].
    split; [|split; reflexivity].
    intros k Hk. do 14 (destruct k as [|k]; [reflexivity|]). lia.
Defined.

(** The background confidences [conf_v[i*2]] are never read: tensors that
    agree on the face confidences [conf_v[i*2+1]] decode alike. *)
Theorem decode_ignores_background expf img_w img_h priors loc_v conf_v conf_v' iou_v :
  (forall i, nth_error conf_v (i*2+1) = nth_error conf_v' (i*2+1)) ->
  decode expf img_w img_h priors loc_v conf_v iou_v
  = decode expf img_w img_h priors loc_v conf_v' iou_v.
Proof.
  intros Hconf. rewrite !decode_traverse. apply traverse_ext.
  intros i _. unfold decode_face. now rewrite Hconf.
Qed.

Lemma decode_ignores_background_witness :
  decode Sample.exp_at_zero 8 8 (generatePriors 8 8) Sample.loc
         [f32.one; f32.one; S754_nan; f32.one; f32.of_int 7; f32.zero] Sample.iou
  = decode Sample.exp_at_zero 8 8 (generatePriors 8 8) Sample.loc
           Sample.conf Sample.iou.
Proof.
  apply (decode_ignores_background Sample.exp_at_zero 8 8 (generatePriors 8 8)).
  intros i. do 3 (destruct i as [|i]; [reflexivity|]). reflexivity.
Defined.

(** ** The fused score outside the valid range *)

(** The score of every decoded candidate, as the loop body computes it. *)
Lemma decode_score expf img_w img_h priors loc_v conf_v iou_v faces i c u :
  decode expf img_w img_h priors loc_v conf_v iou_v = Some faces ->
  (i < length priors)%nat ->
  nth_error conf_v (i*2+1) = Some c -> nth_error iou_v i = Some u ->
  exists f, nth_error faces i = Some f /\ score f = f32.sqrt (c * clamp u)%f32.
Proof.
  intros Hdec Hi Hc Hu.
  destruct (decode_nth _ _ _ _ _ _ _ _ Hdec) as [Hlen Hnth].
  specialize (Hnth i Hi).
  destruct (nth_error faces i) as [f|] eqn:Hf; [|apply nth_error_None in Hf; lia].
  exists f. split; [reflexivity|].
  unfold decode_face in Hnth. rewrite Hc, Hu in Hnth.
  destruct (nth_error priors i); [|discriminate].
  repeat match type of Hnth with
         | context [nth_error loc_v ?k] => destruct (nth_error loc_v k); [|discriminate]
         end.
  injection Hnth as <-. reflexivity.
Qed.

(** The clamp yields a zero, a positive finite value or NaN, never an
    infinity or a negative value. *)
Lemma clamp_shape (u : spec_float) :
  match clamp u with
  | S754_zero _ | S754_finite false _ _ | S754_nan => True
  | _ => False
  end.
Proof.
  destruct u as [[]|[]| |[] m e]; try exact I.
  unfold clamp.
  change (f32.ltb (S754_finite false m e) f32.zero) with false. cbv iota.
  destruct (f32.ltb f32.one (S754_finite false m e)); exact I.
Qed.

(** The clamp does not catch NaN: a NaN IoU estimate, like a NaN face
    confidence, makes the fused score NaN. *)
Theorem nan_input_gives_nan_score expf img_w img_h priors loc_v conf_v iou_v faces i c u :
  decode expf img_w img_h priors loc_v conf_v iou_v = Some faces ->
  (i < length priors)%nat ->
  nth_error conf_v (i*2+1) = Some c -> nth_error iou_v i = Some u ->
  is_nan c = true \/ is_nan u = true ->
  exists f, nth_error faces i = Some f /\ score f = S754_nan.
Proof.
  intros Hdec Hi Hc Hu Hnan.
  destruct (decode_score _ _ _ _ _ _ _ _ _ _ _ Hdec Hi Hc Hu) as (f & Hf & Hs).
  exists f. split; [exact Hf|]. rewrite Hs.
  destruct Hnan as [Hn|Hn].
  - destruct c; try discriminate. reflexivity.
  - destruct u; try discriminate.
    change (clamp S754_nan) with S754_nan. now destruct c.
Qed.

(** An IoU estimate that is negative or zero clamps to zero and makes the
    score of a finite confidence a zero, whatever that confidence. *)
Theorem nonpositive_iou_gives_zero_score expf img_w img_h priors loc_v conf_v iou_v
    faces i c u :
  decode expf img_w img_h priors loc_v conf_v iou_v = Some faces ->
  (i < length priors)%nat ->
  nth_error conf_v (i*2+1) = Some c -> nth_error iou_v i = Some u ->
  is_finite c = true -> f32.leb u f32.zero = true ->
  exists f, nth_error faces i = Some f /\ is_zero (score f) = true.
Proof.
  intros Hdec Hi Hc Hu Hfin Hle.
  destruct (decode_score _ _ _ _ _ _ _ _ _ _ _ Hdec Hi Hc Hu) as (f & Hf & Hs).
  exists f. split; [exact Hf|]. rewrite Hs.
  assert (Hz : exists s, clamp u = S754_zero s).
  { destruct u as [s|[]| |[] m e]; try discriminate Hle.
    - exists s. now destruct s.
    - exists false. reflexivity.
    - exists false. reflexivity. }
  destruct Hz as [s ->].
  destruct c as [sc|sc| |sc mc ec]; try discriminate Hfin; reflexivity.
Qed.

(** A negative face confidence never yields a positive score: the score is
    NaN or a zero. *)
Theorem negative_confidence_gives_no_score expf img_w img_h priors loc_v conf_v iou_v
    faces i c u :
  decode expf img_w img_h priors loc_v conf_v iou_v = Some faces ->
  (i < length priors)%nat ->
  nth_error conf_v (i*2+1) = Some c -> nth_error iou_v i = Some u ->
  f32.ltb c f32.zero = true ->
  exists f, nth_error faces i = Some f /\
            (is_nan (score f) = true \/ is_zero (score f) = true).
Proof.
  intros Hdec Hi Hc Hu Hneg.
  destruct (decode_score _ _ _ _ _ _ _ _ _ _ _ Hdec Hi Hc Hu) as (f & Hf & Hs).
  exists f. split; [exact Hf|]. rewrite Hs.
  pose proof (clamp_shape u) as Hshape.
  destruct (clamp u) as [su|su| |[] mu eu]; try contradiction;
    destruct c as [sc|[]| |[] mc ec]; try discriminate Hneg;
    try (left; reflexivity); try (right; reflexivity).
  unfold f32.sqrt, f32.mul, SFmul. cbn [xorb]. unfold binary_round_aux.
  destruct (shr_fexp _ _ _ _ _) as [mrs' e'].
  destruct (shr_fexp _ _ _ _ _) as [mrs'' e''].
  destruct (shr_m mrs'') as [|p|p]; [right; reflexivity| |left; reflexivity].
  destruct (e'' <=? f32.emax - f32.prec); left; reflexivity.
Qed.

Ltac malformed_run faces H :=
  unfold Malformed.run;
  destruct (decode Sample.exp_at_zero 8 8 (generatePriors 8 8) Sample.loc
                   Malformed.conf Malformed.iou) as [faces|] eqn:H;
  [|vm_compute in H; discriminate H].

Lemma nan_input_gives_nan_score_witness :
  exists faces f,
    Malformed.run = Some faces /\ nth_error faces 0 = Some f /\ score f = S754_nan.
Proof.
  malformed_run faces Hdec.
  destruct (nan_input_gives_nan_score _ _ _ _ _ _ _ faces 0%nat S754_nan f32.one Hdec)
    as (f & Hf & Hs);
    [vm_compute; lia|reflexivity|reflexivity|left; reflexivity|].
  exists faces, f. split; [reflexivity|]. split; assumption.
Defined.

Lemma nonpositive_iou_gives_zero_score_witness :
  exists faces f,
    Malformed.run = Some faces /\ nth_error faces 2 = Some f /\
    is_zero (score f) = true.
Proof.
  malformed_run faces Hdec.
  destruct (nonpositive_iou_gives_zero_score _ _ _ _ _ _ _ faces 2%nat
              f32.one (f32.of_int (-3)) Hdec)
    as (f & Hf & Hs);
    [vm_compute; lia|reflexivity|reflexivity|reflexivity|reflexivity|].
  exists faces, f. split; [reflexivity|]. split; assumption.
Defined.

Lemma negative_confidence_gives_no_score_witness :
  exists faces f,
    Malformed.run = Some faces /\ nth_error faces 1 = Some f /\
    (is_nan (score f) = true \/ is_zero (score f) = true).
Proof.
  malformed_run faces Hdec.
  destruct (negative_confidence_gives_no_score _ _ _ _ _ _ _ faces 1%nat
              (f32.of_int (-1)) f32.one Hdec)
    as (f & Hf & Hs);
    [vm_compute; lia|reflexivity|reflexivity|reflexivity|].
  exists faces, f. split; [reflexivity|]. split; assumption.
Defined.

(** ** The branch without suppression *)

(** With at most one prior postProcess returns what the loop decoded,
    unfiltered: thresholds and top_k play no part, and a read outside a
    tensor is the only way not to return. *)
Theorem postProcess_at_most_one_prior expf ub img_w img_h priors loc_v conf_v iou_v
    scoreThreshold nmsThreshold topK :
  (length priors <= 1)%nat ->
  postProcess expf ub img_w img_h priors loc_v conf_v iou_v
              scoreThreshold nmsThreshold topK
  = decode expf img_w img_h priors loc_v conf_v iou_v.
Proof.
  intros Hfew. unfold postProcess.
  destruct (decode expf img_w img_h priors loc_v conf_v iou_v) as [faces|] eqn:Hdec;
    [|reflexivity].
  destruct (decode_nth _ _ _ _ _ _ _ _ Hdec) as [Hlen _].
  destruct (Nat.ltb_spec 1 (length faces)); [lia|reflexivity].
Qed.

Lemma postProcess_at_most_one_prior_witness :
  postProcess Sample.exp_at_zero Sample.to_int_default 8 8
              [Rect2f.mk f32.one f32.one f32.one f32.one]
              (Sample.zeros 14) [f32.zero; f32.zero] [f32.one]
              Sample.score_threshold Sample.nms_threshold Sample.top_k
  = decode Sample.exp_at_zero 8 8 [Rect2f.mk f32.one f32.one f32.one f32.one]
           (Sample.zeros 14) [f32.zero; f32.zero] [f32.one].
Proof.
  apply postProcess_at_most_one_prior. simpl. lia.
Defined.

(** ** Conversion of box coordinates to [int] *)

(** Whenever the conversion is defined, the integer is within one pixel of
    the exact value, on the side of zero; so a coordinate strictly between
    -1 and 1 becomes 0. *)
Theorem float_to_int_within_one_pixel ub (x : spec_float) (q : Q) :
  SF2Q x = Some q -> INT_MIN <= Qtrunc q <= INT_MAX ->
  let z := float_to_int ub x in
  ((0 <= q)%Q -> (inject_Z z <= q)%Q /\ (q < inject_Z (z + 1))%Q) /\
  ((q <= 0)%Q -> (inject_Z (z - 1) < q)%Q /\ (q <= inject_Z z)%Q).
Proof.
  intros Hq Hrange. cbv zeta. rewrite (float_to_int_exact ub x q Hq Hrange).
  split; intros Hsign.
  - rewrite (Qtrunc_nonneg q Hsign). split; [apply Qfloor_le|apply Qlt_floor].
  - unfold Qtrunc. destruct (Qle_bool 0 q) eqn:E.
    + apply Qle_bool_iff in E.
      assert (Hz : (q == 0)%Q) by (apply Qle_antisym; assumption).
      rewrite (Qfloor_comp _ _ Hz). change (Qfloor 0) with 0.
      rewrite Hz. split; [reflexivity|apply Qle_refl].
    + split; [apply Qceiling_lt|apply Qle_ceiling].
Qed.

Lemma float_to_int_within_one_pixel_witness :
  (inject_Z (-3 - 1) < -14680064 # 4194304)%Q /\
  (-14680064 # 4194304 <= inject_Z (-3))%Q.
Proof.
  assert (Hq : SF2Q (f32.div (f32.of_int (-7)) (f32.of_int 2))
               = Some (-14680064 # 4194304)%Q) by (vm_compute; reflexivity).
  assert (Hrange : INT_MIN <= Qtrunc (-14680064 # 4194304) <= INT_MAX).
  { change (Qtrunc (-14680064 # 4194304)) with (-3).
    unfold INT_MIN, INT_MAX. lia. }
  destruct (float_to_int_within_one_pixel Sample.to_int_default _ _ Hq Hrange)
    as [_ Hneg].
  apply Hneg. unfold Qle. cbn. lia.
Defined.

(** ** Magnitude of rounded results *)

(** Number of binary digits. *)
Lemma Zdigits2_bounds (m : Z) :
  0 < m -> 2 ^ (Zdigits2 m - 1) <= m < 2 ^ Zdigits2 m.
Proof.
  destruct m as [|p|p]; try lia. intros _. cbn [Zdigits2].
  rewrite UnitFacts.digits2_pos_size.
  pose proof (Pos.size_le p) as Hle. pose proof (Pos.size_gt p) as Hgt.
  apply Pos2Z.pos_le_pos in Hle. apply Pos2Z.pos_lt_pos in Hgt.
  rewrite Pos2Z.inj_pow in Hle, Hgt.
  change (Z.pos p~0) with (2 * Z.pos p) in Hle.
  split; [|exact Hgt].
  assert (H2 : 2 ^ Z.pos (Pos.size p) = 2 * 2 ^ (Z.pos (Pos.size p) - 1)).
  { rewrite <- Z.pow_succ_r by lia. f_equal. lia. }
  lia.
Qed.

Lemma Zdigits2_unique (m d : Z) :
  2 ^ (d - 1) <= m < 2 ^ d -> 0 < m -> Zdigits2 m = d.
Proof.
  intros [Hlo Hhi] Hm.
  destruct (Zdigits2_bounds m Hm) as [Hlo' Hhi'].
  assert (Hd : 0 < Zdigits2 m) by (destruct m; cbn; lia).
  assert (0 <= d).
  { destruct (Z.le_gt_cases 0 d); [assumption|].
    rewrite (Z.pow_neg_r 2 d) in Hhi by lia. lia. }
  assert (Zdigits2 m - 1 < d).
  { apply (Z.pow_lt_mono_r_iff 2); lia. }
  assert (d - 1 < Zdigits2 m).
  { destruct (Z.le_gt_cases 0 (d - 1)).
    - apply (Z.pow_lt_mono_r_iff 2); lia.
    - lia. }
  lia.
Qed.

Lemma Zdigits2_pos (m : Z) : 0 < m -> 0 < Zdigits2 m.
Proof. destruct m; cbn; lia. Qed.

Lemma Zdigits2_div_pow2 (m n : Z) :
  0 < m -> 0 <= n < Zdigits2 m -> 
  0 < m / 2 ^ n /\ Zdigits2 (m / 2 ^ n) = Zdigits2 m - n.
Proof.
  intros Hm Hn. destruct (Zdigits2_bounds m Hm) as [Hlo Hhi].
  set (d := Zdigits2 m) in *.
  assert (Hp : 0 < 2 ^ n) by (apply Z.pow_pos_nonneg; lia).
  assert (Hlo' : 2 ^ (d - n - 1) <= m / 2 ^ n).
  { apply Z.div_le_lower_bound; [lia|].
    rewrite <- Z.pow_add_r by lia. replace (n + (d - n - 1)) with (d - 1) by lia. exact Hlo. }
  assert (Hhi' : m / 2 ^ n < 2 ^ (d - n)).
  { apply Z.div_lt_upper_bound; [lia|].
    rewrite <- Z.pow_add_r by lia. replace (n + (d - n)) with d by lia. exact Hhi. }
  assert (0 < 2 ^ (d - n - 1)) by (apply Z.pow_pos_nonneg; lia).
  split; [lia|].
  apply Zdigits2_unique; [|lia]. split; [exact Hlo'|exact Hhi'].
Qed.

Lemma Zdigits2_mul_pow2 (m n : Z) :
  0 < m -> 0 <= n -> Zdigits2 (m * 2 ^ n) = Zdigits2 m + n.
Proof.
  intros Hm Hn. destruct (Zdigits2_bounds m Hm) as [Hlo Hhi].
  pose proof (Zdigits2_pos m Hm) as Hd.
  assert (Hp : 0 < 2 ^ n) by (apply Z.pow_pos_nonneg; lia).
  apply Zdigits2_unique; [|nia].
  replace (Zdigits2 m + n - 1) with (Zdigits2 m - 1 + n) by lia.
  rewrite !Z.pow_add_r by lia. split; nia.
Qed.

Lemma Zdigits2_le_mono (m m' : Z) : 0 < m -> m <= m' -> Zdigits2 m <= Zdigits2 m'.
Proof.
  intros Hm Hle.
  destruct (Zdigits2_bounds m Hm) as [Hlo _].
  destruct (Zdigits2_bounds m' ltac:(lia)) as [_ Hhi'].
  pose proof (Zdigits2_pos m Hm). pose proof (Zdigits2_pos m' ltac:(lia)).
  assert (Zdigits2 m - 1 < Zdigits2 m') by (apply (Z.pow_lt_mono_r_iff 2); lia).
  lia.
Qed.

Lemma Zdigits2_succ (m : Z) : 0 < m -> Zdigits2 (m + 1) <= Zdigits2 m + 1.
Proof.
  intros Hm.
  destruct (Zdigits2_bounds m Hm) as [_ Hhi].
  destruct (Zdigits2_bounds (m + 1) ltac:(lia)) as [Hlo' _].
  pose proof (Zdigits2_pos m Hm). pose proof (Zdigits2_pos (m+1) ltac:(lia)).
  assert (Zdigits2 (m + 1) - 1 < Zdigits2 m + 1).
  { apply (Z.pow_lt_mono_r_iff 2); [lia|lia|].
    rewrite (Z.pow_add_r 2 (Zdigits2 m) 1) by lia. change (2 ^ 1) with 2. lia. }
  lia.
Qed.

Lemma shr_1_m (mrs : shr_record) : 0 <= shr_m mrs -> shr_m (shr_1 mrs) = shr_m mrs / 2.
Proof.
  destruct mrs as [m r s]. cbn [shr_m]. intros Hm.
  destruct m as [|[p|p|]|p]; cbn [shr_1 shr_m]; try reflexivity; try lia.
  - rewrite Pos2Z.inj_xI. apply Z.div_unique with 1; lia.
  - rewrite Pos2Z.inj_xO. apply Z.div_unique with 0; lia.
Qed.

Lemma iter_shr_1_m (p : positive) (mrs : shr_record) :
  0 <= shr_m mrs -> shr_m (iter_pos shr_1 p mrs) = shr_m mrs / 2 ^ Z.pos p.
Proof.
  intros Hm.
  pose (Inv := fun (k : Z) (x : shr_record) =>
                 0 <= k <= Z.pos p /\ shr_m x = shr_m mrs / 2 ^ (Z.pos p - k)).
  assert (Hend : Inv (Z.pos p - Z.pos p) (iter_pos shr_1 p mrs)).
  { apply (UnitFacts.iter_pos_inv shr_1 Inv).
    - intros k x Hk [Hk0 Hx]. split; [lia|].
      assert (Hpow : 0 < 2 ^ (Z.pos p - k)) by (apply Z.pow_pos_nonneg; lia).
      rewrite shr_1_m.
      + rewrite Hx, Z.div_div by lia.
        f_equal. replace (Z.pos p - (k - 1)) with (Z.pos p - k + 1) by lia.
        rewrite Z.pow_add_r by lia. reflexivity.
      + rewrite Hx. apply Z.div_pos; [exact Hm|apply Z.pow_pos_nonneg; lia].
    - lia.
    - split; [lia|]. rewrite Z.sub_diag, Z.div_1_r. reflexivity. }
  destruct Hend as [_ Hend]. rewrite Hend. f_equal. f_equal. lia.
Qed.

Lemma loc_of_shr_record_of_loc (m : Z) (l : location) :
  loc_of_shr_record (shr_record_of_loc m l) = l.
Proof. now destruct l as [|[]]. Qed.

Lemma round_nearest_even_bounds (m : Z) (l : location) :
  m <= round_nearest_even m l <= m + 1.
Proof. destruct l as [|[]]; cbn; try destruct (Z.even m); lia. Qed.

Lemma iter_xO (m k : positive) : Z.pos (Pos.iter xO m k) = Z.pos m * 2 ^ Z.pos k.
Proof.
  induction k as [|k IH] using Pos.peano_ind.
  - cbn [Pos.iter]. rewrite Pos2Z.inj_xO. change (2 ^ 1) with 2. lia.
  - rewrite Pos.iter_succ, Pos2Z.inj_xO, IH, Pos2Z.inj_succ, Z.pow_succ_r by lia. lia.
Qed.

Section Magnitude.

Variables prec emax : Z.
Hypothesis Hprec : 0 < prec.
Hypothesis Hemax : prec < emax.

(** Rounding a positive value of the normal range gives a positive finite
    float; the magnitude [digits + exponent] grows by at most one. *)
Lemma shr_fexp_normal (m e : Z) (l : location) :
  0 < m ->
  3 - emax <= Zdigits2 m + e ->
  let '(mrs, e') := shr_fexp prec emax m e l in
  0 < shr_m mrs /\ Zdigits2 (shr_m mrs) + e' = Zdigits2 m + e /\
  (Zdigits2 (shr_m mrs) <= prec \/ e' = e) /\
  e' = Z.max e (Zdigits2 m + e - prec).
Proof.
  intros Hm HM. unfold shr_fexp.
  assert (Hfexp : fexp prec emax (Zdigits2 m + e) = Zdigits2 m + e - prec)
    by (unfold fexp, emin; lia).
  rewrite Hfexp.
  pose proof (Zdigits2_pos m Hm) as Hd.
  destruct (Zdigits2 m + e - prec - e) as [|p|p] eqn:Hn; cbn [shr].
  - rewrite UnitFacts.shr_m_of_loc. repeat split; try lia.
  - rewrite iter_shr_1_m by (rewrite UnitFacts.shr_m_of_loc; lia).
    rewrite UnitFacts.shr_m_of_loc.
    destruct (Zdigits2_div_pow2 m (Z.pos p) Hm ltac:(lia)) as [Hpos Hdig].
    rewrite Hdig. repeat split; try lia.
  - rewrite UnitFacts.shr_m_of_loc. repeat split; try lia.
Qed.

Lemma binary_round_aux_normal (s : bool) (m e : Z) (l : location) :
  0 < m ->
  3 - emax <= Zdigits2 m + e <= emax - prec - 1 ->
  exists m2 e2,
    binary_round_aux prec emax s m e l = S754_finite s m2 e2 /\
    Zdigits2 m + e <= Zdigits2 (Z.pos m2) + e2 <= Zdigits2 m + e + 1.
Proof.
  intros Hm HM. unfold binary_round_aux.
  pose proof (shr_fexp_normal m e l Hm ltac:(lia)) as H1.
  destruct (shr_fexp prec emax m e l) as [mrs' e'].
  destruct H1 as (Hm' & HM' & Hd' & He').
  pose proof (round_nearest_even_bounds (shr_m mrs') (loc_of_shr_record mrs')) as Hr.
  set (m1 := round_nearest_even (shr_m mrs') (loc_of_shr_record mrs')) in *.
  assert (Hm1 : 0 < m1) by lia.
  assert (Hd1 : Zdigits2 (shr_m mrs') <= Zdigits2 m1 <= Zdigits2 (shr_m mrs') + 1).
  { split; [apply Zdigits2_le_mono; lia|].
    eapply Z.le_trans; [apply (Zdigits2_le_mono m1 (shr_m mrs' + 1)); lia|].
    apply Zdigits2_succ; lia. }
  pose proof (shr_fexp_normal m1 e' loc_Exact Hm1 ltac:(lia)) as H2.
  destruct (shr_fexp prec emax m1 e' loc_Exact) as [mrs'' e''].
  destruct H2 as (Hm'' & HM'' & Hd'' & He'').
  pose proof (Zdigits2_pos _ Hm'') as Hdpos.
  pose proof (Zdigits2_pos m Hm) as Hdm.
  destruct (shr_m mrs'') as [|m2|m2] eqn:Hm2; try lia.
  assert (He2 : e'' <= emax - prec) by lia.
  apply Z.leb_le in He2. rewrite He2.
  exists m2, e''. split; [reflexivity|]. lia.
Qed.


Lemma shl_align_magnitude (m : positive) (e e' : Z) :
  let '(mz, ez) := shl_align m e e' in
  Zdigits2 (Z.pos mz) + ez = Zdigits2 (Z.pos m) + e /\
  Z.pos mz * 2 ^ (ez - Z.min e e') = Z.pos m * 2 ^ (e - Z.min e e').
Proof.
  unfold shl_align. destruct (e' - e) as [|k|k] eqn:Hk.
  - split; [reflexivity|reflexivity].
  - split; [reflexivity|reflexivity].
  - rewrite iter_xO. split.
    + rewrite Zdigits2_mul_pow2 by lia. lia.
    + replace (e' - Z.min e e') with 0 by lia.
      replace (e - Z.min e e') with (Z.pos k) by lia.
      rewrite Z.pow_0_r. lia.
Qed.

Lemma binary_round_normal (m : positive) (e : Z) :
  3 - emax <= Zdigits2 (Z.pos m) + e <= emax - prec - 1 ->
  pos_finite (Zdigits2 (Z.pos m) + e) (Zdigits2 (Z.pos m) + e + 1)
             (binary_round prec emax false m e).
Proof.
  intros HM. unfold binary_round.
  pose proof (shl_align_magnitude m e (fexp prec emax (Z.pos (digits2_pos m) + e))) as Hal.
  destruct (shl_align m e _) as [mz ez]. destruct Hal as [Hal _].
  destruct (binary_round_aux_normal false (Z.pos mz) ez loc_Exact ltac:(lia) ltac:(lia))
    as (m2 & e2 & -> & HM2).
  unfold pos_finite. lia.
Qed.

(** Conversion of a positive integer. *)
Lemma of_int_normal (z : Z) :
  0 < z -> Zdigits2 z <= emax - prec - 1 ->
  pos_finite (Zdigits2 z) (Zdigits2 z + 1) (binary_normalize prec emax z 0 false).
Proof.
  intros Hz Hd. destruct z as [|p|p]; try lia. cbn [binary_normalize].
  pose proof (Zdigits2_pos (Z.pos p) ltac:(lia)).
  pose proof (binary_round_normal p 0 ltac:(lia)) as H0.
  now rewrite !Z.add_0_r in H0.
Qed.

Lemma mul_normal (x y : spec_float) (lx hx ly hy : Z) :
  pos_finite lx hx x -> pos_finite ly hy y ->
  3 - emax <= lx + ly - 1 -> hx + hy <= emax - prec - 1 ->
  pos_finite (lx + ly - 1) (hx + hy + 1) (SFmul prec emax x y).
Proof.
  destruct x as [| | |[] mx ex]; try contradiction.
  destruct y as [| | |[] my ey]; try contradiction.
  cbn [pos_finite SFmul xorb]. intros Hx Hy Hlo Hhi.
  assert (Hd : Zdigits2 (Z.pos mx) + Zdigits2 (Z.pos my) - 1
               <= Zdigits2 (Z.pos (mx * my))
               <= Zdigits2 (Z.pos mx) + Zdigits2 (Z.pos my)).
  { destruct (Zdigits2_bounds (Z.pos mx) ltac:(lia)) as [Lx Ux].
    destruct (Zdigits2_bounds (Z.pos my) ltac:(lia)) as [Ly Uy].
    pose proof (Zdigits2_pos (Z.pos mx) ltac:(lia)).
    pose proof (Zdigits2_pos (Z.pos my) ltac:(lia)).
    rewrite Pos2Z.inj_mul. split.
    - assert (E : Zdigits2 (2 ^ (Zdigits2 (Z.pos mx) - 1) * 2 ^ (Zdigits2 (Z.pos my) - 1))
                  = Zdigits2 (Z.pos mx) + Zdigits2 (Z.pos my) - 1).
      { rewrite <- Z.pow_add_r by lia. apply Zdigits2_unique.
        - split; [apply Z.pow_le_mono_r; lia|apply Z.pow_lt_mono_r; lia].
        - apply Z.pow_pos_nonneg; lia. }
      rewrite <- E. apply Zdigits2_le_mono.
      + apply Z.mul_pos_pos; apply Z.pow_pos_nonneg; lia.
      + apply Z.mul_le_mono_nonneg; try lia; apply Z.pow_nonneg; lia.
    - assert (E : Zdigits2 (2 ^ Zdigits2 (Z.pos mx) * 2 ^ Zdigits2 (Z.pos my) - 1)
                  = Zdigits2 (Z.pos mx) + Zdigits2 (Z.pos my)).
      { rewrite <- Z.pow_add_r by lia.
        assert (1 < 2 ^ (Zdigits2 (Z.pos mx) + Zdigits2 (Z.pos my)))
          by (apply Z.pow_gt_1; lia).
        apply Zdigits2_unique; [|lia].
        split; [|lia].
        assert (2 ^ (Zdigits2 (Z.pos mx) + Zdigits2 (Z.pos my) - 1)
                < 2 ^ (Zdigits2 (Z.pos mx) + Zdigits2 (Z.pos my)))
          by (apply Z.pow_lt_mono_r; lia).
        lia. }
      rewrite <- E. apply Zdigits2_le_mono; [lia|]. nia. }
  destruct (binary_round_aux_normal false (Z.pos (mx * my)) (ex + ey) loc_Exact
              ltac:(lia) ltac:(lia)) as (m2 & e2 & -> & HM2).
  cbn [pos_finite]. lia.
Qed.


Lemma shl_align_fst (m : positive) (e e' : Z) :
  e' <= e -> Z.pos (fst (shl_align m e e')) = Z.pos m * 2 ^ (e - e').
Proof.
  intros Hle. unfold shl_align. destruct (e' - e) as [|k|k] eqn:Hk; cbn [fst].
  - replace (e - e') with 0 by lia. rewrite Z.pow_0_r. lia.
  - lia.
  - rewrite iter_xO. f_equal. f_equal. lia.
Qed.

Lemma Zdigits2_add (a b : Z) :
  0 < a -> 0 < b ->
  Z.max (Zdigits2 a) (Zdigits2 b) <= Zdigits2 (a + b)
  <= Z.max (Zdigits2 a) (Zdigits2 b) + 1.
Proof.
  intros Ha Hb.
  destruct (Zdigits2_bounds a Ha) as [La Ua].
  destruct (Zdigits2_bounds b Hb) as [Lb Ub].
  pose proof (Zdigits2_pos a Ha). pose proof (Zdigits2_pos b Hb).
  split.
  - apply Z.max_lub; apply Zdigits2_le_mono; lia.
  - set (d := Z.max (Zdigits2 a) (Zdigits2 b)).
    assert (Ua' : a < 2 ^ d) by (eapply Z.lt_le_trans; [exact Ua|apply Z.pow_le_mono_r; lia]).
    assert (Ub' : b < 2 ^ d) by (eapply Z.lt_le_trans; [exact Ub|apply Z.pow_le_mono_r; lia]).
    assert (E : Zdigits2 (2 ^ (d + 1) - 1) = d + 1).
    { assert (2 ^ d < 2 ^ (d + 1)) by (apply Z.pow_lt_mono_r; lia).
      assert (0 < 2 ^ d) by (apply Z.pow_pos_nonneg; lia).
      apply Zdigits2_unique; [|lia].
      replace (d + 1 - 1) with d by lia. lia. }
    rewrite <- E. apply Zdigits2_le_mono; [lia|].
    rewrite Z.pow_add_r by lia. change (2 ^ 1) with 2. lia.
Qed.

Lemma add_normal (x y : spec_float) (lx hx ly hy : Z) :
  pos_finite lx hx x -> pos_finite ly hy y ->
  3 - emax <= Z.max lx ly -> Z.max hx hy + 1 <= emax - prec - 1 ->
  pos_finite (Z.max lx ly) (Z.max hx hy + 2) (SFadd prec emax x y).
Proof.
  destruct x as [| | |[] mx ex]; try contradiction.
  destruct y as [| | |[] my ey]; try contradiction.
  cbn [pos_finite SFadd cond_Zopp]. intros Hx Hy Hlo Hhi.
  set (ez := Z.min ex ey).
  pose proof (shl_align_fst mx ex ez ltac:(lia)) as Ha.
  pose proof (shl_align_fst my ey ez ltac:(lia)) as Hb.
  set (a := fst (shl_align mx ex ez)) in *.
  set (b := fst (shl_align my ey ez)) in *.
  assert (Hda : Zdigits2 (Z.pos a) = Zdigits2 (Z.pos mx) + (ex - ez))
    by (rewrite Ha; apply Zdigits2_mul_pow2; lia).
  assert (Hdb : Zdigits2 (Z.pos b) = Zdigits2 (Z.pos my) + (ey - ez))
    by (rewrite Hb; apply Zdigits2_mul_pow2; lia).
  pose proof (Zdigits2_add (Z.pos a) (Z.pos b) ltac:(lia) ltac:(lia)) as Hsum.
  change (Z.pos a + Z.pos b) with (Z.pos (a + b)) in *.
  cbn [binary_normalize].
  pose proof (binary_round_normal (a + b) ez ltac:(lia)) as Hr.
  destruct (binary_round prec emax false (a + b) ez) as [| | |[] m2 e2];
    try contradiction. cbn [pos_finite] in Hr |- *. lia.
Qed.

Lemma div_normal (x y : spec_float) (lx hx ly hy : Z) :
  pos_finite lx hx x -> pos_finite ly hy y ->
  3 - emax <= lx - hy -> hx - ly + 1 <= emax - prec - 1 ->
  pos_finite (lx - hy) (hx - ly + 2) (SFdiv prec emax x y).
Proof.
  destruct x as [| | |[] mx ex]; try contradiction.
  destruct y as [| | |[] my ey]; try contradiction.
  cbn [pos_finite SFdiv xorb]. intros Hx Hy Hlo Hhi.
  unfold SFdiv_core_binary.
  set (d1 := Zdigits2 (Z.pos mx)) in *. set (d2 := Zdigits2 (Z.pos my)) in *.
  assert (Hfexp : fexp prec emax (d1 + ex - (d2 + ey)) = d1 + ex - (d2 + ey) - prec)
    by (unfold fexp, emin; lia).
  rewrite Hfexp.
  set (e' := Z.min (d1 + ex - (d2 + ey) - prec) (ex - ey)).
  set (s := ex - ey - e').
  assert (Hs : prec - d1 + d2 <= s) by (unfold s, e'; lia).
  pose proof (Zdigits2_pos (Z.pos mx) ltac:(lia)) as Hd1. fold d1 in Hd1.
  pose proof (Zdigits2_pos (Z.pos my) ltac:(lia)) as Hd2. fold d2 in Hd2.
  assert (Hs0 : 0 <= s) by (unfold s, e'; lia).
  set (m' := match s with
             | 0 => Z.pos mx
             | Z.pos _ => Z.shiftl (Z.pos mx) s
             | Z.neg _ => 0
             end).
  assert (Hm' : m' = Z.pos mx * 2 ^ s).
  { unfold m'. destruct s as [|p|p]; try lia. apply Z.shiftl_mul_pow2. lia. }
  clearbody m'.
  assert (Hdm' : Zdigits2 m' = d1 + s)
    by (rewrite Hm'; apply Zdigits2_mul_pow2; lia).
  assert (Hm'pos : 0 < m') by (rewrite Hm'; apply Z.mul_pos_pos; [lia|apply Z.pow_pos_nonneg; lia]).
  destruct (Zdigits2_bounds m' Hm'pos) as [L1 U1]. rewrite Hdm' in L1, U1.
  destruct (Zdigits2_bounds (Z.pos my) ltac:(lia)) as [L2 U2]. fold d2 in L2, U2.
  pose proof (Z.div_eucl_eq m' (Z.pos my) ltac:(lia)) as Heq.
  pose proof (Z.mod_pos_bound m' (Z.pos my) ltac:(lia)) as Hmod.
  unfold Z.modulo in Hmod.
  destruct (Z.div_eucl m' (Z.pos my)) as [q r]. 
  assert (Hqlo : 2 ^ (d1 + s - d2 - 1) <= q).
  { assert (Hp : 2 ^ (d1 + s - 1) = 2 ^ (d1 + s - d2 - 1) * 2 ^ d2)
      by (rewrite <- Z.pow_add_r by lia; f_equal; lia).
    assert (0 < 2 ^ (d1 + s - d2 - 1)) by (apply Z.pow_pos_nonneg; lia).
    nia. }
  assert (Hqhi : q < 2 ^ (d1 + s - d2 + 1)).
  { assert (Hp : 2 ^ (d1 + s) = 2 ^ (d1 + s - d2 + 1) * 2 ^ (d2 - 1))
      by (rewrite <- Z.pow_add_r by lia; f_equal; lia).
    assert (0 < 2 ^ (d1 + s - d2 + 1)) by (apply Z.pow_pos_nonneg; lia).
    nia. }
  assert (Hqpos : 0 < q).
  { assert (0 < 2 ^ (d1 + s - d2 - 1)) by (apply Z.pow_pos_nonneg; lia). lia. }
  assert (Hdq : d1 + s - d2 <= Zdigits2 q <= d1 + s - d2 + 1).
  { destruct (Zdigits2_bounds q Hqpos) as [Lq Uq].
    pose proof (Zdigits2_pos q Hqpos).
    assert (d1 + s - d2 - 1 < Zdigits2 q) by (apply (Z.pow_lt_mono_r_iff 2); lia).
    assert (Zdigits2 q - 1 < d1 + s - d2 + 1) by (apply (Z.pow_lt_mono_r_iff 2); lia).
    lia. }
  destruct (binary_round_aux_normal false q e' (new_location (Z.pos my) r)
              Hqpos ltac:(unfold s in *; lia)) as (m2 & e2 & -> & HM2).
  cbn [pos_finite]. unfold s in *. lia.
Qed.

End Magnitude.

(** ** Every prior is positive and finite *)



Lemma pos_finite_weaken (lo hi lo' hi' : Z) (x : spec_float) :
  pos_finite lo hi x -> lo' <= lo -> hi <= hi' -> pos_finite lo' hi' x.
Proof. destruct x as [| | |[] m e]; cbn [pos_finite]; try contradiction. lia. Qed.

Lemma pos_finite_positive (lo hi : Z) (x : spec_float) :
  pos_finite lo hi x -> is_positive x = true.
Proof. destruct x as [| | |[] m e]; cbn [pos_finite]; try contradiction. reflexivity. Qed.

Lemma Zdigits2_int (z : Z) : 0 < z <= INT_MAX -> 1 <= Zdigits2 z <= 31.
Proof.
  intros Hz. split.
  - pose proof (Zdigits2_pos z ltac:(lia)). lia.
  - change 31 with (Zdigits2 INT_MAX). apply Zdigits2_le_mono; lia.
Qed.

Lemma f32_of_int_pos (z : Z) : 0 < z <= INT_MAX -> pos_finite 1 32 (f32.of_int z).
Proof.
  intros Hz. pose proof (Zdigits2_int z Hz) as Hd.
  apply (pos_finite_weaken (Zdigits2 z) (Zdigits2 z + 1)); try lia.
  apply of_int_normal; unfold f32.prec, f32.emax; lia.
Qed.

Lemma f64_of_int_pos (z : Z) : 0 < z <= INT_MAX -> pos_finite 1 32 (f64.of_int z).
Proof.
  intros Hz. pose proof (Zdigits2_int z Hz) as Hd.
  apply (pos_finite_weaken (Zdigits2 z) (Zdigits2 z + 1)); try lia.
  apply of_int_normal; unfold f64.prec, f64.emax; lia.
Qed.

(** The centre coordinate [(k + 0.5) * step / d] of detect.cpp:111-112. *)
Lemma centre_positive (k step d : Z) :
  0 <= k <= INT_MAX -> 0 < step <= INT_MAX -> 0 < d <= INT_MAX ->
  pos_finite (-32) 69
    (f64.to_f32 ((f64.of_int k + f64.half) * f64.of_int step / f64.of_int d)%f64).
Proof.
  intros Hk Hstep Hd.
  assert (Hsum : pos_finite 0 34 (f64.of_int k + f64.half)%f64).
  { destruct (Z.eq_dec k 0) as [->|Hk0].
    - vm_compute. split; discriminate.
    - apply (pos_finite_weaken (Z.max 1 0) (Z.max 32 0 + 2)); try lia.
      apply (add_normal f64.prec f64.emax); try (unfold f64.prec, f64.emax; lia).
      + apply f64_of_int_pos. lia.
      + vm_compute. split; discriminate. }
  assert (Hmul : pos_finite 0 67 ((f64.of_int k + f64.half) * f64.of_int step)%f64).
  { apply (pos_finite_weaken (0 + 1 - 1) (34 + 32 + 1)); try lia.
    apply (mul_normal f64.prec f64.emax); try (unfold f64.prec, f64.emax; lia).
    - exact Hsum.
    - apply f64_of_int_pos. exact Hstep. }
  assert (Hdiv : pos_finite (-32) 68
            ((f64.of_int k + f64.half) * f64.of_int step / f64.of_int d)%f64).
  { apply (pos_finite_weaken (0 - 32) (67 - 1 + 2)); try lia.
    apply (div_normal f64.prec f64.emax); try (unfold f64.prec, f64.emax; lia).
    - exact Hmul.
    - apply f64_of_int_pos. exact Hd. }
  destruct ((f64.of_int k + f64.half) * f64.of_int step / f64.of_int d)%f64
    as [| | |[] m e]; try contradiction.
  cbn [pos_finite f64.to_f32] in Hdiv |- *.
  apply (pos_finite_weaken (Zdigits2 (Z.pos m) + e) (Zdigits2 (Z.pos m) + e + 1)); try lia.
  apply binary_round_normal; unfold f32.prec, f32.emax; lia.
Qed.

(** The anchor extent [ms / d] of detect.cpp:108-109. *)
Lemma extent_positive (ms : spec_float) (d : Z) :
  pos_finite 1 32 ms -> 0 < d <= INT_MAX ->
  pos_finite (-31) 33 (ms / f32.of_int d)%f32.
Proof.
  intros Hms Hd.
  apply (pos_finite_weaken (1 - 32) (32 - 1 + 2)); try lia.
  apply (div_normal f32.prec f32.emax); try (unfold f32.prec, f32.emax; lia).
  - exact Hms.
  - apply f32_of_int_pos. exact Hd.
Qed.

Lemma make_prior_positive (img_w img_h step _h _w : Z) (ms : spec_float) :
  0 < img_w <= INT_MAX -> 0 < img_h <= INT_MAX -> 0 < step <= INT_MAX ->
  0 <= _h <= INT_MAX -> 0 <= _w <= INT_MAX -> pos_finite 1 32 ms ->
  positive_rect (make_prior img_w img_h step _h _w ms) = true.
Proof.
  intros Hw Hh Hstep H_h H_w Hms.
  unfold positive_rect, make_prior. cbn [Rect2f.x Rect2f.y Rect2f.width Rect2f.height].
  rewrite (pos_finite_positive _ _ _ (centre_positive _w step img_w H_w Hstep Hw)).
  rewrite (pos_finite_positive _ _ _ (centre_positive _h step img_h H_h Hstep Hh)).
  rewrite (pos_finite_positive _ _ _ (extent_positive ms img_w Hms Hw)).
  rewrite (pos_finite_positive _ _ _ (extent_positive ms img_h Hms Hh)).
  reflexivity.
Qed.

Lemma in_upto (n x : Z) : In x (upto n) -> 0 <= x < n.
Proof.
  unfold upto. intros Hin. apply in_map_iff in Hin.
  destruct Hin as (k & <- & Hk). apply in_seq in Hk. lia.
Qed.

Lemma spec_level_priors_positive (img_w img_h : Z) (fm : Size.t) (level : Z * list Z) :
  0 < img_w <= INT_MAX -> 0 < img_h <= INT_MAX ->
  Size.width fm <= INT_MAX -> Size.height fm <= INT_MAX ->
  0 < fst level <= INT_MAX -> Forall (fun s => 0 < s <= INT_MAX) (snd level) ->
  Forall (fun p => positive_rect p = true) (spec_level_priors img_w img_h fm level).
Proof.
  intros Hw Hh Hfw Hfh Hstep Hsizes. apply Forall_forall. intros p Hp.
  unfold spec_level_priors in Hp.
  apply in_flat_map in Hp. destruct Hp as (_h & H_h & Hp).
  apply in_flat_map in Hp. destruct Hp as (_w & H_w & Hp).
  apply in_map_iff in Hp. destruct Hp as (s & <- & Hs).
  apply in_upto in H_h, H_w.
  change (spec_prior img_w img_h (fst level) _h _w s)
    with (make_prior img_w img_h (fst level) _h _w (f32.of_int s)).
  apply make_prior_positive; try lia.
  apply f32_of_int_pos. exact (proj1 (Forall_forall _ _) Hsizes s Hs).
Qed.

(** Every component of every generated prior (centre x, centre y, width,
    height) is a positive finite binary32 number, for every image size
    below [INT_MAX]: the divisions by the image size and the narrowing from
    [double] never give NaN, an infinity, zero or a negative value. *)
Theorem priors_positive_finite (img_w img_h : Z) :
  INT_MIN <= img_w < INT_MAX -> INT_MIN <= img_h < INT_MAX ->
  Forall (fun p => positive_rect p = true) (generatePriors img_w img_h).
Proof.
  intros Hw Hh.
  destruct (Z_le_gt_dec img_w 0) as [Hw0|Hw0];
    [rewrite generatePriors_nonpos by lia; constructor|].
  destruct (Z_le_gt_dec img_h 0) as [Hh0|Hh0];
    [rewrite generatePriors_nonpos by lia; constructor|].
  rewrite generatePriors_levels, feature_map_dims by lia.
  unfold INT_MAX in Hw, Hh.
  assert (Hlevel : forall k, In k [8; 16; 32; 64] ->
            (img_w + 1) / k <= INT_MAX /\ (img_h + 1) / k <= INT_MAX).
  { intros k Hk. unfold INT_MAX.
    split; apply Z.lt_succ_r; apply Z.div_lt_upper_bound;
      cbn [In] in Hk; try lia; destruct Hk as [<-|[<-|[<-|[<-|[]]]]]; lia. }
  cbn [seq flat_map nth spec_levels].
  repeat (apply Forall_app; split); try constructor;
    apply spec_level_priors_positive; cbn [Size.width Size.height fst snd];
    try (unfold INT_MAX; lia);
    try (apply Hlevel; cbn [In]; tauto);
    repeat constructor; unfold INT_MAX; lia.
Qed.

(** The fourteen priors of a 16 x 16 image. *)
Lemma priors_positive_finite_witness :
  length (generatePriors 16 16) = 14%nat /\
  Forall (fun p => positive_rect p = true) (generatePriors 16 16).
Proof.
  split; [vm_compute; reflexivity|].
  apply (priors_positive_finite 16 16); unfold INT_MIN, INT_MAX; lia.
Defined.
